(** * Table header model of k9s: [internal/model1/header.go]

    A shallow embedding of the [Header] type and of its operations
    ([IndexOf], the role queries, [MapIndices], [Customize], [Diff]),
    followed by the properties established about them.

    Conventions.
    - A Go [string] is a sequence of bytes: it is a [string] of 8-bit
      [ascii] characters here.
    - A Go [int] is a [Z]; the not-found sentinel is [-1].
    - [map[int]ExtractionInfo] is a [gmap Z ExtractionInfo] and the set
      [map[int]struct{}] a [gset Z].
    - An operation that indexes a slice returns an [option]: [None] stands
      for the run-time panic of an index out of range.
    - The calls to the logger only report; they return nothing and change
      no value, and are left out. *)

From Stdlib Require Import ZArith Lia List String Ascii Bool.
From stdpp Require Import gmap strings list fin_maps.

Local Open Scope string_scope.
Local Open Scope list_scope.
Local Open Scope Z_scope.

(** ** Data model *)

(** Modelled from the spec: the declaration of [DecoratorFunc], which is in
    another file of the package. The spec has decorators be the functions
    that format the values of the cells, as the name of the type says: a
    function type. A value of a function type is [nil] or a function:
    [None] is [nil] and [Some f] is the function [f], named by a number. *)
Definition DecoratorFunc : Type := option N.

Record ExtractionInfo : Type := mkExtractionInfo {
  IdxInFields : Z;
  CustomName : string;
  HeaderName : string;
  Key : string
}.

(** The zero value, which a map read yields for an absent key. *)
Definition zeroExtractionInfo : ExtractionInfo :=
  mkExtractionInfo 0 "" "" "".

Abbreviation ExtractionInfoBag := (gmap Z ExtractionInfo).

Record HeaderColumn : Type := mkHeaderColumn {
  Name : string;
  Align : Z;
  Decorator : DecoratorFunc;
  Wide : bool;
  MX : bool;
  Time : bool;
  Capacity : bool;
  VS : bool
}.

(** [HeaderColumn{Name: n}]: every other field has its zero value. *)
Definition namedColumn (n : string) : HeaderColumn :=
  mkHeaderColumn n 0 None false false false false false.

(** [col.Wide = w] on a local copy. *)
Definition setWide (w : bool) (c : HeaderColumn) : HeaderColumn :=
  mkHeaderColumn (Name c) (Align c) (Decorator c) w
                 (MX c) (Time c) (Capacity c) (VS c).

(** [func (h HeaderColumn) Clone() HeaderColumn]: the receiver is a value,
    and the copy the call made of it is returned. *)
Definition HeaderColumn_Clone (h : HeaderColumn) : HeaderColumn := h.

(** The elements of a [Header], in order. *)
Abbreviation Header := (list HeaderColumn).

Definition ageCol : string := "AGE".

(** [len(h)] as an [int]. *)
Definition len {A : Type} (l : list A) : Z := Z.of_nat (length l).

(** [h[i]]: [None] when the index is out of range. *)
Definition index {A : Type} (l : list A) (i : Z) : option A :=
  if (i <? 0) || (len l <=? i) then None else l !! Z.to_nat i.

(** ** IndexOf *)

(** The loop of [IndexOf] over the columns from position [i] on. *)
Fixpoint IndexOf_from (i : Z) (h : Header) (colName : string)
    (includeWide : bool) : Z * bool :=
  match h with
  | [] => (-1, false)
  | c :: h' =>
      if Wide c && negb includeWide
      then IndexOf_from (i + 1) h' colName includeWide
      else if String.eqb (Name c) colName
           then (i, true)
           else IndexOf_from (i + 1) h' colName includeWide
  end.

Definition IndexOf (h : Header) (colName : string) (includeWide : bool)
    : Z * bool :=
  IndexOf_from 0 h colName includeWide.

(** ** Role queries *)

Definition HasAge (h : Header) : bool := snd (IndexOf h ageCol true).

Definition IsMetricsCol (h : Header) (col : Z) : option bool :=
  if (col <? 0) || (col >=? len h) then Some false
  else c ← index h col; Some (MX c).

Definition IsTimeCol (h : Header) (col : Z) : option bool :=
  if (col <? 0) || (col >=? len h) then Some false
  else c ← index h col; Some (Time c).

Definition IsCapacityCol (h : Header) (col : Z) : option bool :=
  if (col <? 0) || (col >=? len h) then Some false
  else c ← index h col; Some (Capacity c).

(** ** The regular expression of [MapIndices]

    The expression compiled by [regexp.MustCompile] is [rgx_source] below.

    Go's [regexp] matches with the leftmost-first discipline of a
    backtracking matcher: among the matches that start leftmost, the one a
    backtracking search reaches first, a greedy operator trying the longer
    alternative first. The matcher below is that search, written with a
    continuation for the rest of the expression.

    The matcher reads bytes while Go's reads UTF-8 runes. Every character
    test of this expression separates ASCII bytes only ([:], [\n], [\[],
    [\]] and the blanks of [\s]), a byte of a multi-byte rune is never
    ASCII, and an ill-formed byte is read as one rune that is none of
    these: both readings accept the same texts with the same groups. *)

Inductive regex : Type :=
| rx_bot                         (* ^ : beginning of text *)
| rx_eot                         (* $ : end of text *)
| rx_lit (c : ascii)             (* a literal character *)
| rx_star (p : ascii -> bool)    (* x* for a one-character class, greedy *)
| rx_plus (p : ascii -> bool)    (* x+ for a one-character class, greedy *)
| rx_cat (r1 r2 : regex)         (* r1 r2 *)
| rx_opt (r : regex)             (* (?:r)? greedy *)
| rx_cap (n : nat) (r : regex).  (* (r), the capturing group number n *)

(** The groups that took part in the match so far, the most recent first. *)
Definition captures : Type := list (nat * string).

(** What is left of the expression: it receives the rest of the text, the
    offset reached and the groups. *)
Definition cont (R : Type) : Type := string -> nat -> captures -> option R.

(** [x*]: one more character first, and the shorter run when the rest of
    the expression fails after the longer one. *)
Fixpoint run_star {R : Type} (p : ascii -> bool) (s : string) (pos : nat)
    (cs : captures) (k : cont R) : option R :=
  match s with
  | String a s' =>
      if p a then
        match run_star p s' (S pos) cs k with
        | Some r => Some r
        | None => k s pos cs
        end
      else k s pos cs
  | EmptyString => k s pos cs
  end.

Fixpoint run {R : Type} (r : regex) (s : string) (pos : nat)
    (cs : captures) (k : cont R) : option R :=
  match r with
  | rx_bot => if Nat.eqb pos 0 then k s pos cs else None
  | rx_eot => match s with EmptyString => k s pos cs | String _ _ => None end
  | rx_lit c =>
      match s with
      | String a s' => if Ascii.eqb a c then k s' (S pos) cs else None
      | EmptyString => None
      end
  | rx_star p => run_star p s pos cs k
  | rx_plus p =>
      match s with
      | String a s' => if p a then run_star p s' (S pos) cs k else None
      | EmptyString => None
      end
  | rx_cat r1 r2 =>
      run r1 s pos cs (fun s' pos' cs' => run r2 s' pos' cs' k)
  | rx_opt r1 =>
      match run r1 s pos cs k with
      | Some x => Some x
      | None => k s pos cs
      end
  | rx_cap n r1 =>
      run r1 s pos cs
          (fun s' pos' cs' =>
             k s' pos' ((n, String.substring 0 (pos' - pos) s) :: cs'))
  end.

(** The text of group [n]; the empty string for a group that took no part. *)
Fixpoint group (n : nat) (cs : captures) : string :=
  match cs with
  | [] => ""
  | (m, t) :: cs' => if Nat.eqb m n then t else group n cs'
  end.

(** The unanchored search: the first offset, from [pos] on, at which the
    expression matches; the result is the matched text and the groups. *)
Fixpoint search (r : regex) (s : string) (pos : nat)
    : option (string * captures) :=
  match
    run r s pos []
        (fun _ pos' cs => Some (String.substring 0 (pos' - pos) s, cs))
  with
  | Some m => Some m
  | None =>
      match s with
      | String _ s' => search r s' (S pos)
      | EmptyString => None
      end
  end.

(** [MatchString], a method of [Regexp]. *)
Definition MatchString (r : regex) (s : string) : bool :=
  match search r s 0 with Some _ => true | None => false end.

(** [FindStringSubmatch], a method of [Regexp], for an expression with [n]
    groups: [nil] without a match, and otherwise the matched text followed
    by the text of each group. *)
Definition FindStringSubmatch (r : regex) (n : nat) (s : string)
    : list string :=
  match search r s 0 with
  | Some (m, cs) => m :: map (fun i => group i cs) (seq 1 n)
  | None => []
  end.

Definition chr (n : nat) : ascii := Ascii.ascii_of_nat n.

Definition colon : ascii := chr 58.
Definition lbracket : ascii := chr 91.
Definition rbracket : ascii := chr 93.
Definition newline : ascii := chr 10.

(** [[^:]]. *)
Definition notColon (a : ascii) : bool := negb (Ascii.eqb a colon).

(** [.], which excludes the line feed. *)
Definition anyChar (a : ascii) : bool := negb (Ascii.eqb a newline).

(** [\s], that is [[\t\n\f\r ]]. *)
Definition perlSpace (a : ascii) : bool :=
  Ascii.eqb a (chr 9) || Ascii.eqb a (chr 10) || Ascii.eqb a (chr 12)
  || Ascii.eqb a (chr 13) || Ascii.eqb a (chr 32).

Definition rgx_source : string := "^(?:([^:]+):\s*)?(.*)\[(.*)\]$".

(** The closing bracket and the end of the text. *)
Definition rgx_tail : regex := rx_cat (rx_lit rbracket) rx_eot.

(** Group 3 and what follows it. *)
Definition rgx_key : regex := rx_cat (rx_cap 3 (rx_star anyChar)) rgx_tail.

(** Group 2 and what follows it. *)
Definition rgx_body : regex :=
  rx_cat (rx_cap 2 (rx_star anyChar)) (rx_cat (rx_lit lbracket) rgx_key).

(** The colon and the blanks after group 1. *)
Definition rgx_colon : regex := rx_cat (rx_lit colon) (rx_star perlSpace).

(** The optional part: group 1, the colon and the blanks. *)
Definition rgx_prefix : regex :=
  rx_cat (rx_cap 1 (rx_plus notColon)) rgx_colon.

(** [rgx_source] as a [regex]. *)
Definition rgx : regex :=
  rx_cat rx_bot (rx_cat (rx_opt rgx_prefix) rgx_body).

(** The number of capturing groups of [rgx]. *)
Definition rgx_groups : nat := 3.

(** ** The expression read by hand

    What [rgx] accepts, computed directly on the text: a custom name, when
    there is one, is the text before the first colon; the blanks after the
    colon are skipped; the header name runs to the last opening bracket
    after which the text closes; the key is the text between that bracket
    and the closing bracket that ends the text. *)

(** [t] is [b] followed by a closing bracket, [b] without line feed. *)
Fixpoint closes (t : string) : option string :=
  match t with
  | EmptyString => None
  | String a t' =>
      match t' with
      | EmptyString => if Ascii.eqb a rbracket then Some "" else None
      | String _ _ =>
          if anyChar a then
            match closes t' with
            | Some b => Some (String a b)
            | None => None
            end
          else None
      end
  end.

(** [t] is a header name, an opening bracket and a text that [closes], the
    header name being without line feed and as long as can be. *)
Fixpoint body (t : string) : option (string * string) :=
  match t with
  | EmptyString => None
  | String a t' =>
      if anyChar a then
        match body t' with
        | Some (g2, g3) => Some (String a g2, g3)
        | None =>
            if Ascii.eqb a lbracket then
              match closes t' with
              | Some b => Some ("", b)
              | None => None
              end
            else None
        end
      else None
  end.

(** The text before the first colon and the text after it. *)
Fixpoint splitColon (s : string) : option (string * string) :=
  match s with
  | EmptyString => None
  | String a s' =>
      if notColon a then
        match splitColon s' with
        | Some (g, after) => Some (String a g, after)
        | None => None
        end
      else Some ("", s')
  end.

(** The text without its leading blanks. *)
Fixpoint dropSpaces (s : string) : string :=
  match s with
  | EmptyString => ""
  | String a s' => if perlSpace a then dropSpaces s' else s
  end.

(** The header name and the key of a text without custom name. *)
Definition parsePlain (s : string) : option (string * string * string) :=
  match body s with
  | Some (g2, g3) => Some ("", g2, g3)
  | None => None
  end.

(** The custom name, the header name and the key of a request. *)
Definition parseSpec (s : string) : option (string * string * string) :=
  match splitColon s with
  | Some (String a g, after) =>
      match body (dropSpaces after) with
      | Some (g2, g3) => Some (String a g, g2, g3)
      | None => parsePlain s
      end
  | _ => parsePlain s
  end.

(** ** Continuations of the matcher

    The continuations [run] builds for [rgx], named. *)

(** The continuation of the star of group 3, the group having started at
    the offset [pos0] of the text [t0]. *)
Definition afterKey {R : Type} (t0 : string) (pos0 : nat) (k : cont R)
    : cont R :=
  fun s' pos' cs' =>
    run rgx_tail s' pos'
        ((3%nat, String.substring 0 (pos' - pos0) t0) :: cs') k.

(** The continuation of the star of group 2, the group having started at
    the offset [pos0] of the text [t0]. *)
Definition afterName {R : Type} (t0 : string) (pos0 : nat) (k : cont R)
    : cont R :=
  fun s' pos' cs' =>
    run (rx_cat (rx_lit lbracket) rgx_key) s' pos'
        ((2%nat, String.substring 0 (pos' - pos0) t0) :: cs') k.

(** The continuation that accepts: it cannot fail. *)
Definition accept {R : Type} (f : nat -> captures -> R) : cont R :=
  fun _ pos' cs' => Some (f pos' cs').

(** The continuation of the star of group 1, the group having started at
    the offset [pos0] of the text [t0]. *)
Definition afterCustom {R : Type} (t0 : string) (pos0 : nat) (k : cont R)
    : cont R :=
  fun s' pos' cs' =>
    run rgx_colon s' pos'
        ((1%nat, String.substring 0 (pos' - pos0) t0) :: cs') k.

(** The body of the expression, as a continuation. *)
Definition thenBody {R : Type} (f : nat -> captures -> R) : cont R :=
  fun s' pos' cs' => run rgx_body s' pos' cs' (accept f).

(** ** The form of the texts of the expression *)

(** Every character of the text passes the test. *)
Fixpoint allChars (p : ascii -> bool) (s : string) : bool :=
  match s with
  | EmptyString => true
  | String a s' => p a && allChars p s'
  end.



(** ** strings.TrimSpace

    The leading and the trailing white space is cut off, white space being
    the runes of Unicode's White_Space property. Beyond the six ASCII ones
    these are U+0085, U+00A0, U+1680, U+2000 to U+200A, U+2028, U+2029,
    U+202F, U+205F and U+3000, each met in the text as its UTF-8 encoding. *)

(** The encodings of the white-space runes, as lists of byte values. *)
Definition spaceEncodings : list (list nat) :=
  map (fun n => [n]) [9; 10; 11; 12; 13; 32]%nat
  ++ [[194; 133]; [194; 160]; [225; 154; 128]]%nat
  ++ map (fun n => [226; 128; n]%nat) (seq 128 11)
  ++ [[226; 128; 168]; [226; 128; 169]; [226; 128; 175];
      [226; 129; 159]; [227; 128; 128]]%nat.

(** The text after the bytes [bs], when the text starts with them. *)
Fixpoint stripBytes (bs : list nat) (s : string) : option string :=
  match bs with
  | [] => Some s
  | b :: bs' =>
      match s with
      | String a s' =>
          if Nat.eqb (Ascii.nat_of_ascii a) b then stripBytes bs' s' else None
      | EmptyString => None
      end
  end.

(** The text after its first rune, when that rune is one of [encs]; [back]
    tells that the text is read backwards. *)
Fixpoint stripSpace (encs : list (list nat)) (back : bool) (s : string)
    : option string :=
  match encs with
  | [] => None
  | bs :: encs' =>
      match stripBytes (if back then List.rev bs else bs) s with
      | Some t => Some t
      | None => stripSpace encs' back s
      end
  end.

(** White-space runes are cut off while there are any; each takes a byte at
    least, so that [fuel] need not exceed the length of the text. *)
Fixpoint trimN (fuel : nat) (back : bool) (s : string) : string :=
  match fuel with
  | O => s
  | S fuel' =>
      match stripSpace spaceEncodings back s with
      | Some t => trimN fuel' back t
      | None => s
      end
  end.

Definition reverse_string (s : string) : string :=
  string_of_list_ascii (List.rev (list_ascii_of_string s)).

Definition TrimLeft (s : string) : string := trimN (String.length s) false s.

Definition TrimRight (s : string) : string :=
  let r := reverse_string s in
  reverse_string (trimN (String.length r) true r).

Definition TrimSpace (s : string) : string := TrimRight (TrimLeft s).

(** ** White space, as Unicode has it

    What [strings.TrimSpace] is to cut off, stated apart from the way
    [TrimSpace] does it above. *)

(** The runes of Unicode's White_Space property: U+0009 to U+000D, U+0020,
    U+0085, U+00A0, U+1680, U+2000 to U+200A, U+2028, U+2029, U+202F,
    U+205F and U+3000. *)
Definition whiteSpaceRunes : list N :=
  [9; 10; 11; 12; 13; 32; 133; 160; 5760;
   8192; 8193; 8194; 8195; 8196; 8197; 8198; 8199; 8200; 8201; 8202;
   8232; 8233; 8239; 8287; 12288]%N.

(** The UTF-8 encoding of a rune below U+10000: one byte below U+0080, two
    bytes below U+0800, and three bytes otherwise. *)
Definition utf8 (r : N) : string :=
  if (r <? 128)%N then String (Ascii.ascii_of_N r) ""
  else if (r <? 2048)%N then
    String (Ascii.ascii_of_N (192 + r / 64))
      (String (Ascii.ascii_of_N (128 + r mod 64)) "")
  else
    String (Ascii.ascii_of_N (224 + r / 4096))
      (String (Ascii.ascii_of_N (128 + (r / 64) mod 64))
         (String (Ascii.ascii_of_N (128 + r mod 64)) "")).

(** The text is the encoding of one white-space rune. *)
Definition spaceRune (e : string) : Prop :=
  exists r : N, In r whiteSpaceRunes /\ e = utf8 r.

(** The text is made of white-space runes only. *)
Inductive allSpace : string -> Prop :=
| allSpace_nil : allSpace ""
| allSpace_cons (e s : string) :
    spaceRune e -> allSpace s -> allSpace (e ++ s)%string.

(** The text begins, or ends, with a white-space rune. *)
Definition startsWithSpace (s : string) : Prop :=
  exists e t : string, spaceRune e /\ s = (e ++ t)%string.

Definition endsWithSpace (s : string) : Prop :=
  exists e t : string, spaceRune e /\ s = (t ++ e)%string.

(** [name] is [s] without its leading and its trailing white space: white
    space only was cut off at both ends, and none is left at either. *)
Definition trimmedOf (s name : string) : Prop :=
  exists lead trail : string,
    s = (lead ++ name ++ trail)%string
    /\ allSpace lead /\ allSpace trail
    /\ ~ startsWithSpace name /\ ~ endsWithSpace name.

(** The text of the given byte values. *)
Definition bytesString (bs : list nat) : string :=
  string_of_list_ascii (map Ascii.ascii_of_nat bs).

(** The text is one of the encodings of [spaceEncodings], read backwards
    when [back] is set. *)
Definition spaceEnc (back : bool) (e : string) : Prop :=
  exists bs : list nat,
    In bs spaceEncodings
    /\ e = bytesString (if back then List.rev bs else bs).

(** The text is made of such encodings only. *)
Inductive chain (back : bool) : string -> Prop :=
| chain_nil : chain back ""
| chain_cons (e s : string) :
    spaceEnc back e -> chain back s -> chain back (e ++ s)%string.

(** ** MapIndices *)

(** The body of the loop of [MapIndices], on the pair of [ii] and [eib]. *)
Definition MapIndices_step (h : Header)
    (st : list Z * ExtractionInfoBag) (col : string)
    : list Z * ExtractionInfoBag :=
  let '(ii, eib) := st in
  let '(idx, _) := IndexOf h col true in
  let ii := ii ++ [idx] in
  if negb (MatchString rgx col) then (ii, eib)
  else
    let matches := FindStringSubmatch rgx rgx_groups col in
    if (length matches <? 4)%nat then (ii, eib)
    else
      let customName := TrimSpace (nth 1 matches "") in
      let headerName := nth 2 matches "" in
      let key := nth 3 matches "" in
      if negb (String.eqb headerName "LABELS") then (ii, eib)
      else
        let '(idxInFields, _) := IndexOf h headerName true in
        (ii, <[len ii - 1 :=
                 mkExtractionInfo idxInFields customName headerName key]> eib).

(** [wide] is a parameter of the method and is not read. *)
Definition MapIndices (h : Header) (cols : list string) (wide : bool)
    : list Z * ExtractionInfoBag :=
  fold_left (MapIndices_step h) cols ([], ∅).

(** ** Customize *)

(** [extractionInfoBag[i]]: the zero value for an absent key. *)
Definition bagAt (eib : ExtractionInfoBag) (i : Z) : ExtractionInfo :=
  default zeroExtractionInfo (eib !! i).

(** The first loop, from the request of position [i] on: [cc] is the
    header under construction and [xx] the set of the indices in use. *)
Fixpoint Customize_cols (h : Header) (eib : ExtractionInfoBag) (i : Z)
    (cols : list string) (cc : Header) (xx : gset Z)
    : option (Header * gset Z) :=
  match cols with
  | [] => Some (cc, xx)
  | c :: cols' =>
      let '(idx, ok) := IndexOf h c true in
      if negb ok then
        Customize_cols h eib (i + 1) cols'
          (cc ++ [namedColumn (CustomName (bagAt eib i))]) xx
      else
        hc ← index h idx;
        let col := setWide false (HeaderColumn_Clone hc) in
        Customize_cols h eib (i + 1) cols' (cc ++ [col]) ({[idx]} ∪ xx)
  end.

(** The second loop, over the columns of the header from position [i] on. *)
Fixpoint Customize_wide (i : Z) (h : Header) (xx : gset Z) (cc : Header)
    : Header :=
  match h with
  | [] => cc
  | c :: h' =>
      if decide (i ∈ xx) then Customize_wide (i + 1) h' xx cc
      else
        let col := setWide true (HeaderColumn_Clone c) in
        Customize_wide (i + 1) h' xx (cc ++ [col])
  end.

Definition Customize (h : Header) (cols : list string) (wide : bool)
    : option Header :=
  if len cols =? 0 then Some h
  else
    let '(_, extractionInfoBag) := MapIndices h cols wide in
    '(cc, xx) ← Customize_cols h extractionInfoBag 0 cols [] ∅;
    if negb wide then Some cc
    else Some (Customize_wide 0 h xx cc).

(** ** Diff

    [reflect.DeepEqual] sees more of a slice than its elements: whether it
    is [nil], and where its first element lives. [hv_data] is [None] for a
    [nil] slice, which has no element, and otherwise the address of the
    first element. *)
Record HeaderValue : Type := mkHeaderValue {
  hv_data : option N;
  hv_cols : Header
}.

(** Function values are deeply equal when both are [nil], and not
    otherwise. *)
Definition deepEqual_func (f g : DecoratorFunc) : bool :=
  match f, g with
  | None, None => true
  | _, _ => false
  end.

(** Struct values are deeply equal when their fields are, each by the rule
    of its type. *)
Definition deepEqual_column (c1 c2 : HeaderColumn) : bool :=
  String.eqb (Name c1) (Name c2)
  && (Align c1 =? Align c2)
  && deepEqual_func (Decorator c1) (Decorator c2)
  && Bool.eqb (Wide c1) (Wide c2)
  && Bool.eqb (MX c1) (MX c2)
  && Bool.eqb (Time c1) (Time c2)
  && Bool.eqb (Capacity c1) (Capacity c2)
  && Bool.eqb (VS c1) (VS c2).

Fixpoint deepEqual_elems (l1 l2 : Header) : bool :=
  match l1, l2 with
  | [], [] => true
  | c1 :: l1', c2 :: l2' => deepEqual_column c1 c2 && deepEqual_elems l1' l2'
  | _, _ => false
  end.

Definition isNil (h : HeaderValue) : bool :=
  match hv_data h with None => true | Some _ => false end.

(** Slice values: both [nil] or neither, the same length, and then the same
    first element or deeply equal elements. *)
Definition DeepEqual (h1 h2 : HeaderValue) : bool :=
  if negb (Bool.eqb (isNil h1) (isNil h2)) then false
  else if negb (len (hv_cols h1) =? len (hv_cols h2)) then false
  else if bool_decide (hv_data h1 = hv_data h2) then true
  else deepEqual_elems (hv_cols h1) (hv_cols h2).

Definition Diff (h header : HeaderValue) : bool :=
  if negb (len (hv_cols h) =? len (hv_cols header)) then true
  else negb (DeepEqual h header).

(** ** Clear, Clone, Labelize and ColumnNames *)

(** [func (h Header) Clear() Header]: the slice [h[:0]] starts where [h]
    starts, is [nil] when [h] is, and has no element. *)
Definition Header_Clear (h : HeaderValue) : HeaderValue :=
  mkHeaderValue (hv_data h) [].

(** The loop of [Clone], [he] being the header under construction. *)
Fixpoint Clone_loop (h : Header) (he : Header) : Header :=
  match h with
  | [] => he
  | c :: h' => Clone_loop h' (he ++ [HeaderColumn_Clone c])
  end.

(** [func (h Header) Clone() Header]. The slice that [make] returns is not
    [nil]; [a] is the address of the array allocated for it, within whose
    capacity the appends stay. *)
Definition Header_Clone (a : N) (h : HeaderValue) : HeaderValue :=
  mkHeaderValue (Some a) (Clone_loop (hv_cols h) []).

(** The first loop of [Labelize]: [h[c]] fails for an index out of range. *)
Fixpoint Labelize_cols (h : Header) (cols : list Z) (header : Header)
    : option Header :=
  match cols with
  | [] => Some header
  | c :: cols' => hc ← index h c; Labelize_cols h cols' (header ++ [hc])
  end.

(** The second loop of [Labelize], over the labels. *)
Fixpoint Labelize_labels (cc : list string) (header : Header) : Header :=
  match cc with
  | [] => header
  | c :: cc' => Labelize_labels cc' (header ++ [namedColumn c])
  end.

(** [func (h Header) Labelize(cols []int, labelCol int, rr *RowEvents)].
    Modelled from the spec: the method [ExtractHeaderLabels] of [RowEvents],
    which is in another file of the package; it returns the label keys seen
    in the column [labelCol] of the rows, in order. It is an argument
    here, called after the first loop as in the source. *)
Definition Labelize (h : Header) (cols : list Z) (labelCol : Z)
    (ExtractHeaderLabels : Z -> list string) : option Header :=
  header ← Labelize_cols h cols [];
  Some (Labelize_labels (ExtractHeaderLabels labelCol) header).

(** The loop of [ColumnNames]. *)
Fixpoint ColumnNames_loop (h : Header) (wide : bool) (cc : list string)
    : list string :=
  match h with
  | [] => cc
  | c :: h' =>
      if negb wide && Wide c then ColumnNames_loop h' wide cc
      else ColumnNames_loop h' wide (cc ++ [Name c])
  end.

(** [func (h Header) ColumnNames(wide bool) []string]. This method does not
    index: [None] is the [nil] slice it returns for a header without
    column. *)
Definition ColumnNames (h : Header) (wide : bool) : option (list string) :=
  if len h =? 0 then None
  else Some (ColumnNames_loop h wide []).

(** The elements of a slice of names: none for [nil]. *)
Definition namesOf (r : option (list string)) : list string :=
  default [] r.

(** The column is listed by [ColumnNames]. *)
Definition visible (wide : bool) (c : HeaderColumn) : bool :=
  negb (negb wide && Wide c).

(** ** Notions used to state the properties *)

(** What a request asks to extract: the groups of [rgx] when the request
    matches it and its header name is LABELS. *)
Definition synthesis (h : Header) (col : string) : option ExtractionInfo :=
  match FindStringSubmatch rgx rgx_groups col with
  | [_; g1; g2; g3] =>
      if String.eqb g2 "LABELS"
      then Some (mkExtractionInfo (fst (IndexOf h "LABELS" true))
                                  (TrimSpace g1) g2 g3)
      else None
  | _ => None
  end.

(** The request at the key [k] of a bag whose first key is [base]. *)
Definition requestAt (cols : list string) (base k : Z) : option string :=
  if decide (base <= k) then cols !! Z.to_nat (k - base) else None.

(** The custom name [MapIndices] keeps for a request: the trimmed text of
    group 1 for an extraction from LABELS, and the empty string otherwise. *)
Definition capturedName (col : string) : string :=
  match FindStringSubmatch rgx rgx_groups col with
  | [_; g1; g2; _] => if String.eqb g2 "LABELS" then TrimSpace g1 else ""
  | _ => ""
  end.

(** The index a request resolves to, when it names a column. *)
Definition resolve (h : Header) (c : string) : option Z :=
  let '(idx, ok) := IndexOf h c true in
  if ok then Some idx else None.

(** Some request resolves to the index [j]. *)
Definition consumed (h : Header) (cols : list string) (j : Z) : bool :=
  existsb (fun c => bool_decide (resolve h c = Some j)) cols.

(** The columns of [l], each with its index, that pass the test [keep] on
    the index; [a] is the index of the first column of [l]. *)
Definition keptFrom (keep : Z -> bool) (a : nat) (l : Header) : Header :=
  map snd
      (List.filter (fun p => keep (Z.of_nat (fst p)))
                   (combine (seq a (length l)) l)).

(** The columns of the header to whose index no request resolves, in the
    order of the header. *)
Definition unmatched (h : Header) (cols : list string) : Header :=
  keptFrom (fun j => negb (consumed h cols j)) 0 h.

(** The number of the indices of the header to which no request
    resolves. *)
Definition unmatchedCount (h : Header) (cols : list string) : nat :=
  length (List.filter (fun j => negb (consumed h cols (Z.of_nat j)))
                      (seq 0 (length h))).

(** The name of the column [Customize] makes for a request: the request
    itself when it names a column, and the custom name kept for it
    otherwise. *)
Definition shownName (h : Header) (c : string) : string :=
  if snd (IndexOf h c true) then c else capturedName c.

(** The column of the header a position of the customized header comes
    from, read in the index list of [MapIndices]: -1 when the position is
    out of the list. *)
Definition sourceIndex (ii : list Z) (z : Z) : Z :=
  default (-1) (index ii z).

(** A character other than the opening bracket. *)
Definition notLBracket (a : ascii) : bool := negb (Ascii.eqb a lbracket).

(** A request for the label [key] without custom name. *)
Definition bareLabelRequest (key : string) : string :=
  ("LABELS" ++ String lbracket (key ++ String rbracket ""))%string.

(** A request for the label [key], shown under [name]: the name, a colon,
    the blanks [ws], and the key in brackets after LABELS. *)
Definition labelRequest (name ws key : string) : string :=
  (name ++ String colon (ws ++ "LABELS" ++ String lbracket
                            (key ++ String rbracket "")))%string.

(** ** Sample values *)

Definition plainColumn (n : string) : HeaderColumn :=
  mkHeaderColumn n 0 None false false false false false.

(** A header with the columns NAME, AGE and LABELS. *)
Definition sampleHeader : Header :=
  [plainColumn "NAME"; plainColumn "AGE"; plainColumn "LABELS"].

Definition sampleRequests : list string := ["NAME"; "grp: LABELS[app]"].

(** A column that carries a decorator. *)
Definition decoratedColumn : HeaderColumn :=
  mkHeaderColumn "AGE" 0 (Some 7%N) false false true false false.

(** A slice of that one column, stored at the address [a]. *)
Definition decoratedAt (a : N) : HeaderValue :=
  mkHeaderValue (Some a) [decoratedColumn].

(** The [nil] header and an empty header that is not [nil]. *)
Definition nilHeader : HeaderValue := mkHeaderValue None [].
Definition emptyHeader : HeaderValue := mkHeaderValue (Some 1%N) [].

(** Two slices that start at the same address and have the same length show
    the same elements. *)
Definition coherent (h1 h2 : HeaderValue) : Prop :=
  hv_data h1 = hv_data h2 ->
  length (hv_cols h1) = length (hv_cols h2) ->
  hv_cols h1 = hv_cols h2.

(** * Properties *)

(** ** Indexing and IndexOf *)

Lemma len_nonneg {A : Type} (l : list A) : 0 <= len l.
Proof. unfold len. lia. Qed.

Lemma index_of_nat {A : Type} (l : list A) (j : nat) :
  index l (Z.of_nat j) = l !! j.
Proof.
  unfold index, len.
  destruct (l !! j) as [x|] eqn:E.
  - pose proof (lookup_lt_Some _ _ _ E) as Hlt.
    replace (Z.of_nat j <? 0) with false by (symmetry; apply Z.ltb_ge; lia).
    replace (Z.of_nat (length l) <=? Z.of_nat j) with false
      by (symmetry; apply Z.leb_gt; lia).
    simpl. rewrite Nat2Z.id. exact E.
  - apply lookup_ge_None in E.
    replace (Z.of_nat (length l) <=? Z.of_nat j) with true
      by (symmetry; apply Z.leb_le; lia).
    rewrite orb_true_r. reflexivity.
Qed.

Lemma index_Some {A : Type} (l : list A) (i : Z) (x : A) :
  index l i = Some x <-> 0 <= i < len l /\ l !! Z.to_nat i = Some x.
Proof.
  unfold index.
  destruct (i <? 0) eqn:E1; [apply Z.ltb_lt in E1|apply Z.ltb_ge in E1];
    destruct (len l <=? i) eqn:E2;
    [apply Z.leb_le in E2|apply Z.leb_gt in E2
    |apply Z.leb_le in E2|apply Z.leb_gt in E2];
    simpl; split; try (intros [? ?]; lia); try discriminate.
  - intros H. split; [lia|exact H].
  - intros [_ H]. exact H.
Qed.

Lemma IndexOf_from_found (h : Header) :
  forall (i idx : Z) (n : string) (w : bool),
    IndexOf_from i h n w = (idx, true) ->
    exists (j : nat) (c : HeaderColumn),
      idx = i + Z.of_nat j /\ h !! j = Some c /\ Name c = n
      /\ (Wide c = false \/ w = true)
      /\ forall (j' : nat) (c' : HeaderColumn),
           (j' < j)%nat -> h !! j' = Some c' ->
           (Wide c' = true /\ w = false) \/ Name c' <> n.
Proof.
  induction h as [|c h IH]; intros i idx n w H; simpl in H.
  - discriminate.
  - destruct (Wide c && negb w) eqn:Ew.
    + apply IH in H as (j & c0 & -> & Hj & Hn & Hw & Hfirst).
      exists (S j), c0. repeat split; auto; [lia|].
      intros [|j'] c' Hlt Hc'; simpl in Hc'.
      * inversion Hc'; subst c'. left.
        apply andb_true_iff in Ew as [-> Ew].
        split; [reflexivity|]. destruct w; [discriminate|reflexivity].
      * apply (Hfirst j'); [lia|exact Hc'].
    + destruct (String.eqb_spec (Name c) n) as [Heq|Hne].
      * inversion H; subst idx. exists 0%nat, c.
        repeat split; auto; [lia| |intros j' c' Hlt; lia].
        apply andb_false_iff in Ew as [Ew|Ew]; [left; exact Ew|right].
        destruct w; [reflexivity|discriminate].
      * apply IH in H as (j & c0 & -> & Hj & Hn & Hw & Hfirst).
        exists (S j), c0. repeat split; auto; [lia|].
        intros [|j'] c' Hlt Hc'; simpl in Hc'.
        -- inversion Hc'; subst c'. right. exact Hne.
        -- apply (Hfirst j'); [lia|exact Hc'].
Qed.

Lemma IndexOf_from_missing (h : Header) :
  forall (i idx : Z) (n : string) (w : bool),
    IndexOf_from i h n w = (idx, false) ->
    idx = -1 /\
    forall c : HeaderColumn,
      c ∈ h -> Name c = n -> Wide c = true /\ w = false.
Proof.
  induction h as [|c h IH]; intros i idx n w H; simpl in H.
  - inversion H. split; [reflexivity|]. intros c Hc. inversion Hc.
  - destruct (Wide c && negb w) eqn:Ew.
    + apply IH in H as [-> Hall]. split; [reflexivity|].
      intros c' Hc' Hn. apply elem_of_cons in Hc' as [->|Hc'].
      * apply andb_true_iff in Ew as [-> Ew].
        split; [reflexivity|]. destruct w; [discriminate|reflexivity].
      * apply (Hall c' Hc' Hn).
    + destruct (String.eqb_spec (Name c) n) as [Heq|Hne]; [discriminate|].
      apply IH in H as [-> Hall]. split; [reflexivity|].
      intros c' Hc' Hn. apply elem_of_cons in Hc' as [->|Hc'].
      * contradiction.
      * apply (Hall c' Hc' Hn).
Qed.

(** A name that [IndexOf] finds is the name of the column at the index it
    returns, and that index is in range. *)
Lemma IndexOf_found (h : Header) (n : string) (w : bool) (idx : Z) :
  IndexOf h n w = (idx, true) ->
  exists c : HeaderColumn,
    index h idx = Some c /\ Name c = n /\ 0 <= idx < len h.
Proof.
  intros H. apply IndexOf_from_found in H as (j & c & -> & Hj & Hn & _).
  exists c. rewrite Z.add_0_l, index_of_nat.
  repeat split; auto; [lia|].
  apply lookup_lt_Some in Hj. unfold len. lia.
Qed.

Lemma IndexOf_missing (h : Header) (n : string) (w : bool) (idx : Z) :
  IndexOf h n w = (idx, false) -> idx = -1.
Proof. intros H. apply IndexOf_from_missing in H as [-> _]. reflexivity. Qed.

(** The index returned is the sentinel or an index of the header. *)
Lemma IndexOf_range (h : Header) (n : string) (w : bool) :
  fst (IndexOf h n w) = -1 \/ 0 <= fst (IndexOf h n w) < len h.
Proof.
  destruct (IndexOf h n w) as [idx [|]] eqn:E; simpl.
  - right. apply IndexOf_found in E as (c & _ & _ & Hr). exact Hr.
  - left. apply IndexOf_missing in E. exact E.
Qed.

Lemma IndexOf_wide_iff (h : Header) (n : string) :
  snd (IndexOf h n true) = true <-> exists c, c ∈ h /\ Name c = n.
Proof.
  destruct (IndexOf h n true) as [idx [|]] eqn:E; simpl; split.
  - intros _. apply IndexOf_from_found in E as (j & c & _ & Hj & Hn & _).
    exists c. split; [|exact Hn]. apply list_elem_of_lookup. eauto.
  - reflexivity.
  - discriminate.
  - intros (c & Hc & Hn).
    apply IndexOf_from_missing in E as [_ Hall].
    destruct (Hall c Hc Hn) as [_ ?]. discriminate.
Qed.

(** ** Role queries *)

Lemma index_out_of_range {A : Type} (l : list A) (i : Z) :
  i < 0 \/ len l <= i -> index l i = None.
Proof.
  intros H. destruct (index l i) as [x|] eqn:E; [|reflexivity].
  apply index_Some in E as [? _]. lia.
Qed.

Lemma index_in_range {A : Type} (l : list A) (i : Z) :
  0 <= i < len l -> exists x, index l i = Some x /\ l !! Z.to_nat i = Some x.
Proof.
  intros H. destruct (l !! Z.to_nat i) as [x|] eqn:E.
  - exists x. split; [|reflexivity]. apply index_Some. auto.
  - apply lookup_ge_None in E. unfold len in H. lia.
Qed.

Lemma role_guard (h : Header) (col : Z) :
  (col <? 0) || (col >=? len h) = true <-> col < 0 \/ len h <= col.
Proof.
  rewrite orb_true_iff, Z.ltb_lt, Z.geb_le. reflexivity.
Qed.

(** C8. [IsMetricsCol], [IsTimeCol] and [IsCapacityCol] never fail: they
    return false for an index that is negative or at least the length of
    the header, and the flag of the column at the index otherwise. [HasAge]
    holds exactly when some column, wide or not, is named AGE. *)
Theorem role_queries_bounds_checked (h : Header) (col : Z) :
  (col < 0 \/ len h <= col ->
     IsMetricsCol h col = Some false
     /\ IsTimeCol h col = Some false
     /\ IsCapacityCol h col = Some false)
  /\ (0 <= col < len h ->
        exists c : HeaderColumn,
          h !! Z.to_nat col = Some c
          /\ IsMetricsCol h col = Some (MX c)
          /\ IsTimeCol h col = Some (Time c)
          /\ IsCapacityCol h col = Some (Capacity c))
  /\ (HasAge h = true <-> exists c, c ∈ h /\ Name c = "AGE").
Proof.
  assert (Hage : HasAge h = true <-> exists c, c ∈ h /\ Name c = "AGE").
  { unfold HasAge, ageCol. apply IndexOf_wide_iff. }
  split; [|split; [|exact Hage]].
  - intros Hout. apply role_guard in Hout.
    unfold IsMetricsCol, IsTimeCol, IsCapacityCol. rewrite Hout. auto.
  - intros Hin. destruct (index_in_range h col Hin) as (c & Hi & Hl).
    exists c. unfold IsMetricsCol, IsTimeCol, IsCapacityCol.
    destruct ((col <? 0) || (col >=? len h)) eqn:G.
    + apply role_guard in G. lia.
    + rewrite Hi. simpl. auto.
Qed.

(** ** The expression and its reading by hand *)

Lemma append_cons (a : ascii) (s t : string) :
  (String a s ++ t)%string = String a (s ++ t)%string.
Proof. reflexivity. Qed.

Lemma append_nil_l (t : string) : ("" ++ t)%string = t.
Proof. reflexivity. Qed.

Lemma append_nil_r (s : string) : (s ++ "")%string = s.
Proof.
  induction s as [|a s IH]; [reflexivity|].
  rewrite append_cons, IH. reflexivity.
Qed.

Lemma append_snoc (s : string) (a : ascii) (t : string) :
  ((s ++ String a "") ++ t)%string = (s ++ String a t)%string.
Proof.
  induction s as [|b s IH]; [reflexivity|].
  rewrite !append_cons, IH. reflexivity.
Qed.

Lemma length_append (s t : string) :
  String.length (s ++ t) = (String.length s + String.length t)%nat.
Proof.
  induction s as [|a s IH]; [reflexivity|].
  rewrite append_cons. simpl. rewrite IH. reflexivity.
Qed.

Lemma substring_prefix (s t : string) :
  String.substring 0 (String.length s) (s ++ t) = s.
Proof.
  induction s as [|a s IH].
  - rewrite append_nil_l. destruct t; reflexivity.
  - rewrite append_cons. simpl. rewrite IH. reflexivity.
Qed.

Lemma substring_all (s : string) :
  String.substring 0 (String.length s) s = s.
Proof. induction s as [|a s IH]; simpl; [|rewrite IH]; reflexivity. Qed.

Lemma anyChar_false (a : ascii) : anyChar a = false -> a = newline.
Proof.
  unfold anyChar. rewrite negb_false_iff. apply Ascii.eqb_eq.
Qed.

Lemma notColon_false (a : ascii) : notColon a = false -> a = colon.
Proof.
  unfold notColon. rewrite negb_false_iff. apply Ascii.eqb_eq.
Qed.

Lemma notColon_true (a : ascii) :
  notColon a = true -> Ascii.eqb a colon = false.
Proof. unfold notColon. apply negb_true_iff. Qed.

Lemma perlSpace_not_bracket (a : ascii) :
  perlSpace a = true -> Ascii.eqb a lbracket = false.
Proof.
  unfold perlSpace. rewrite !orb_true_iff, !Ascii.eqb_eq.
  intros [[[[->| ->]| ->]| ->]| ->]; reflexivity.
Qed.

(** The end of the expression: a closing bracket and nothing more. *)
Lemma run_tail {R : Type} (s : string) (pos : nat) (cs : captures)
    (k : cont R) :
  run rgx_tail s pos cs k =
    match s with
    | String a EmptyString =>
        if Ascii.eqb a rbracket then k "" (S pos) cs else None
    | _ => None
    end.
Proof.
  destruct s as [|a [|b s]]; simpl; try reflexivity;
    destruct (Ascii.eqb a rbracket); reflexivity.
Qed.

Lemma run_key_star {R : Type} (k : cont R) (t0 : string) (pos0 : nat)
    (cs : captures) :
  forall t pre : string,
    t0 = (pre ++ t)%string ->
    run_star anyChar t (pos0 + String.length pre) cs (afterKey t0 pos0 k) =
      match closes t with
      | Some b =>
          k "" (pos0 + String.length t0)%nat ((3%nat, (pre ++ b)%string) :: cs)
      | None => None
      end.
Proof.
  induction t as [|a t IH]; intros pre Ht0.
  - reflexivity.
  - assert (Hhere :
      afterKey t0 pos0 k (String a t) (pos0 + String.length pre)%nat cs =
        match t with
        | EmptyString =>
            if Ascii.eqb a rbracket
            then k "" (pos0 + String.length t0)%nat
                   ((3%nat, (pre ++ "")%string) :: cs)
            else None
        | String _ _ => None
        end).
    { unfold afterKey. rewrite run_tail. destruct t as [|b t]; [|reflexivity].
      destruct (Ascii.eqb a rbracket); [|reflexivity].
      replace (pos0 + String.length pre - pos0)%nat
        with (String.length pre) by lia.
      rewrite Ht0, substring_prefix, length_append, append_nil_r. simpl.
      f_equal. lia. }
    cbn [run_star closes]. destruct (anyChar a) eqn:Ea.
    + specialize (IH (pre ++ String a "")%string).
      rewrite append_snoc, length_append in IH. simpl in IH.
      replace (S (pos0 + String.length pre))
        with (pos0 + (String.length pre + 1))%nat by lia.
      rewrite (IH Ht0), Hhere. destruct t as [|b t].
      * simpl. destruct (Ascii.eqb a rbracket); reflexivity.
      * destruct (closes (String b t)); [|reflexivity].
        clear IH. rewrite append_snoc. destruct (k "" _ _); reflexivity.
    + rewrite Hhere. destruct t as [|b t]; [|reflexivity].
      apply anyChar_false in Ea. subst a. reflexivity.
Qed.

Lemma run_key {R : Type} (k : cont R) (t : string) (pos : nat)
    (cs : captures) :
  run rgx_key t pos cs k =
    match closes t with
    | Some b => k "" (pos + String.length t)%nat ((3%nat, b) :: cs)
    | None => None
    end.
Proof.
  pose proof (run_key_star k t pos cs t "" eq_refl) as H.
  simpl in H. rewrite Nat.add_0_r in H.
  transitivity (run_star anyChar t pos cs (afterKey t pos k));
    [reflexivity|].
  rewrite H. destruct (closes t); reflexivity.
Qed.

Section Accepting.

(** The matcher run with a continuation that accepts, [f] making the result
    from the offset reached and the groups. *)
Context {R : Type} (f : nat -> captures -> R).

Lemma run_body_star (t0 : string) (pos0 : nat) (cs : captures) :
  forall t pre : string,
    t0 = (pre ++ t)%string ->
    run_star anyChar t (pos0 + String.length pre) cs
             (afterName t0 pos0 (accept f)) =
      match body t with
      | Some (g2, g3) =>
          Some (f (pos0 + String.length t0)%nat
                  ((3%nat, g3) :: (2%nat, (pre ++ g2)%string) :: cs))
      | None => None
      end.
Proof.
  induction t as [|a t IH]; intros pre Ht0.
  - reflexivity.
  - assert (Hhere :
      afterName t0 pos0 (accept f) (String a t)
                (pos0 + String.length pre)%nat cs =
        if Ascii.eqb a lbracket then
          match closes t with
          | Some b =>
              Some (f (pos0 + String.length t0)%nat
                      ((3%nat, b) :: (2%nat, pre) :: cs))
          | None => None
          end
        else None).
    { unfold afterName. cbn [run].
      destruct (Ascii.eqb a lbracket); [|reflexivity].
      rewrite run_key.
      replace (pos0 + String.length pre - pos0)%nat
        with (String.length pre) by lia.
      rewrite Ht0, substring_prefix, length_append. simpl.
      destruct (closes t); [|reflexivity].
      unfold accept. do 2 f_equal. lia. }
    cbn [run_star body]. destruct (anyChar a) eqn:Ea.
    + specialize (IH (pre ++ String a "")%string).
      rewrite append_snoc, length_append in IH. simpl in IH.
      replace (S (pos0 + String.length pre))
        with (pos0 + (String.length pre + 1))%nat by lia.
      rewrite (IH Ht0), Hhere. clear IH.
      destruct (body t) as [[g2 g3]|].
      * rewrite append_snoc. reflexivity.
      * destruct (Ascii.eqb a lbracket); [|reflexivity].
        destruct (closes t); [|reflexivity].
        rewrite append_nil_r. reflexivity.
    + rewrite Hhere. apply anyChar_false in Ea. subst a. reflexivity.
Qed.

Lemma run_body (t : string) (pos : nat) (cs : captures) :
  run rgx_body t pos cs (accept f) =
    match body t with
    | Some (g2, g3) =>
        Some (f (pos + String.length t)%nat
                ((3%nat, g3) :: (2%nat, g2) :: cs))
    | None => None
    end.
Proof.
  pose proof (run_body_star t pos cs t "" eq_refl) as H.
  simpl in H. rewrite Nat.add_0_r in H.
  transitivity (run_star anyChar t pos cs (afterName t pos (accept f)));
    [reflexivity|].
  rewrite H. destruct (body t) as [[g2 g3]|]; reflexivity.
Qed.

Lemma body_spaces (t : string) : body (dropSpaces t) = None -> body t = None.
Proof.
  induction t as [|a t IH]; [reflexivity|].
  cbn [dropSpaces]. destruct (perlSpace a) eqn:Ea; [|auto].
  intros H. cbn [body]. rewrite (IH H), (perlSpace_not_bracket a Ea).
  destruct (anyChar a); reflexivity.
Qed.

(** The blanks after the colon: all of them are skipped, since a text that
    is no body after its blanks is no body with some of them. *)
Lemma run_spaces :
  forall (t : string) (pos : nat) (cs : captures),
    run_star perlSpace t pos cs
             (fun s' pos' cs' => run rgx_body s' pos' cs' (accept f)) =
      match body (dropSpaces t) with
      | Some (g2, g3) =>
          Some (f (pos + String.length t)%nat
                  ((3%nat, g3) :: (2%nat, g2) :: cs))
      | None => None
      end.
Proof.
  induction t as [|a t IH]; intros pos cs.
  - reflexivity.
  - cbn [run_star dropSpaces]. destruct (perlSpace a) eqn:Ea.
    + rewrite IH. destruct (body (dropSpaces t)) as [[g2 g3]|] eqn:Eb.
      * simpl. do 4 f_equal. lia.
      * rewrite run_body. cbn [body].
        rewrite (body_spaces t Eb), (perlSpace_not_bracket a Ea).
        destruct (anyChar a); reflexivity.
    + rewrite run_body. reflexivity.
Qed.

Lemma run_custom_star (t0 : string) (pos0 : nat) (cs : captures) :
  forall t pre : string,
    t0 = (pre ++ t)%string ->
    run_star notColon t (pos0 + String.length pre) cs
             (afterCustom t0 pos0 (thenBody f)) =
      match splitColon t with
      | Some (g, after) =>
          match body (dropSpaces after) with
          | Some (g2, g3) =>
              Some (f (pos0 + String.length t0)%nat
                      ((3%nat, g3) :: (2%nat, g2)
                       :: (1%nat, (pre ++ g)%string) :: cs))
          | None => None
          end
      | None => None
      end.
Proof.
  induction t as [|a t IH]; intros pre Ht0.
  - reflexivity.
  - assert (Hhere :
      afterCustom t0 pos0 (thenBody f) (String a t)
                  (pos0 + String.length pre)%nat cs =
        if Ascii.eqb a colon then
          match body (dropSpaces t) with
          | Some (g2, g3) =>
              Some (f (pos0 + String.length t0)%nat
                      ((3%nat, g3) :: (2%nat, g2) :: (1%nat, pre) :: cs))
          | None => None
          end
        else None).
    { unfold afterCustom, rgx_colon. cbn [run].
      destruct (Ascii.eqb a colon); [|reflexivity].
      change (fun s' pos' cs' => run rgx_body s' pos' cs' (accept f))
        with (thenBody f).
      unfold thenBody. rewrite run_spaces.
      replace (pos0 + String.length pre - pos0)%nat
        with (String.length pre) by lia.
      rewrite Ht0, substring_prefix, length_append. simpl.
      destruct (body (dropSpaces t)) as [[g2 g3]|]; [|reflexivity].
      do 2 f_equal. lia. }
    cbn [run_star splitColon]. destruct (notColon a) eqn:Ea.
    + specialize (IH (pre ++ String a "")%string).
      rewrite append_snoc, length_append in IH. simpl in IH.
      replace (S (pos0 + String.length pre))
        with (pos0 + (String.length pre + 1))%nat by lia.
      rewrite (IH Ht0), Hhere, (notColon_true a Ea). clear IH.
      destruct (splitColon t) as [[g after]|]; [|reflexivity].
      destruct (body (dropSpaces after)) as [[g2 g3]|]; [|reflexivity].
      rewrite append_snoc. reflexivity.
    + rewrite Hhere. apply notColon_false in Ea. subst a.
      rewrite append_nil_r. reflexivity.
Qed.

(** The optional part of the expression, followed by its body. *)
Lemma run_prefix (s : string) :
  run rgx_prefix s 0 [] (thenBody f) =
    match splitColon s with
    | Some (String a g, after) =>
        match body (dropSpaces after) with
        | Some (g2, g3) =>
            Some (f (String.length s)
                    [(3%nat, g3); (2%nat, g2); (1%nat, String a g)])
        | None => None
        end
    | _ => None
    end.
Proof.
  destruct s as [|a s]; [reflexivity|].
  transitivity
    (if notColon a
     then run_star notColon s 1 [] (afterCustom (String a s) 0 (thenBody f))
     else None); [reflexivity|].
  cbn [splitColon]. destruct (notColon a); [|reflexivity].
  pose proof (run_custom_star (String a s) 0 [] s (String a "") eq_refl)
    as H.
  change (0 + String.length (String a ""))%nat with 1%nat in H.
  rewrite H.
  destruct (splitColon s) as [[g after]|]; reflexivity.
Qed.

Lemma run_rgx (s : string) :
  run rgx s 0 [] (accept f) =
    match run rgx_prefix s 0 [] (thenBody f) with
    | Some x => Some x
    | None =>
        match body s with
        | Some (g2, g3) =>
            Some (f (String.length s) [(3%nat, g3); (2%nat, g2)])
        | None => None
        end
    end.
Proof.
  transitivity
    (match run rgx_prefix s 0 [] (thenBody f) with
     | Some x => Some x
     | None => run rgx_body s 0 [] (accept f)
     end); [reflexivity|].
  rewrite run_body. reflexivity.
Qed.

End Accepting.

(** The expression starts with the beginning of the text: no match starts
    further on. *)
Lemma search_anchored (s : string) :
  forall pos : nat, search rgx s (S pos) = None.
Proof.
  induction s as [|a s IH]; intros pos; cbn [search].
  - reflexivity.
  - rewrite IH. reflexivity.
Qed.

Lemma search_rgx (s : string) :
  search rgx s 0 =
    run rgx s 0 []
        (accept (fun pos' cs => (String.substring 0 (pos' - 0) s, cs))).
Proof.
  destruct s as [|a s]; cbn [search].
  - reflexivity.
  - rewrite search_anchored. unfold accept.
    destruct (run rgx (String a s) 0 [] _); reflexivity.
Qed.

(** The matcher and the reading by hand agree on every text. *)
Theorem rgx_reads_as_parseSpec (s : string) :
  FindStringSubmatch rgx rgx_groups s =
    match parseSpec s with
    | Some (g1, g2, g3) => [s; g1; g2; g3]
    | None => []
    end
  /\ MatchString rgx s =
       match parseSpec s with Some _ => true | None => false end.
Proof.
  unfold FindStringSubmatch, MatchString, parseSpec, parsePlain.
  rewrite search_rgx, run_rgx, run_prefix, Nat.sub_0_r, substring_all.
  destruct (splitColon s) as [[[|a g] after]|];
    try (destruct (body s) as [[g2 g3]|]; split; reflexivity).
  destruct (body (dropSpaces after)) as [[g2 g3]|]; [split; reflexivity|].
  destruct (body s) as [[g2 g3]|]; split; reflexivity.
Qed.

(** ** The texts the expression accepts *)


Lemma closes_complete (b : string) :
  allChars anyChar b = true -> closes (b ++ String rbracket "") = Some b.
Proof.
  induction b as [|a b IH]; intros H.
  - reflexivity.
  - simpl in H. apply andb_true_iff in H as [Ha Hb].
    rewrite append_cons. cbn [closes]. rewrite (IH Hb), Ha.
    destruct b; reflexivity.
Qed.




Lemma splitColon_complete (g after : string) :
  allChars notColon g = true ->
  splitColon (g ++ String colon after) = Some (g, after).
Proof.
  induction g as [|a g IH]; intros H.
  - reflexivity.
  - simpl in H. apply andb_true_iff in H as [Ha Hg].
    rewrite append_cons. cbn [splitColon]. rewrite Ha, (IH Hg). reflexivity.
Qed.


Lemma dropSpaces_append (ws t : string) :
  allChars perlSpace ws = true -> dropSpaces (ws ++ t) = dropSpaces t.
Proof.
  induction ws as [|a ws IH]; intros H; [reflexivity|].
  simpl in H. apply andb_true_iff in H as [Ha Hws].
  rewrite append_cons. cbn [dropSpaces]. rewrite Ha. apply IH, Hws.
Qed.


Lemma append_assoc (s t u : string) :
  ((s ++ t) ++ u)%string = (s ++ (t ++ u))%string.
Proof.
  induction s as [|a s IH]; [reflexivity|].
  rewrite !append_cons, IH. reflexivity.
Qed.



(** ** TrimSpace *)

Lemma list_of_append (a b : string) :
  list_ascii_of_string (a ++ b)
  = list_ascii_of_string a ++ list_ascii_of_string b.
Proof.
  induction a as [|x a IH]; [reflexivity|].
  rewrite append_cons. simpl. rewrite IH. reflexivity.
Qed.

Lemma string_of_app (l1 l2 : list ascii) :
  string_of_list_ascii (l1 ++ l2)
  = (string_of_list_ascii l1 ++ string_of_list_ascii l2)%string.
Proof.
  induction l1 as [|x l1 IH]; [reflexivity|].
  simpl. rewrite IH. reflexivity.
Qed.

Lemma reverse_append (a b : string) :
  reverse_string (a ++ b) = (reverse_string b ++ reverse_string a)%string.
Proof.
  unfold reverse_string.
  rewrite list_of_append, rev_app_distr, string_of_app. reflexivity.
Qed.

Lemma reverse_involutive (s : string) :
  reverse_string (reverse_string s) = s.
Proof.
  unfold reverse_string.
  rewrite list_ascii_of_string_of_list_ascii, rev_involutive.
  apply string_of_list_ascii_of_string.
Qed.

Lemma reverse_bytes (bs : list nat) :
  reverse_string (bytesString bs) = bytesString (List.rev bs).
Proof.
  unfold reverse_string, bytesString.
  rewrite list_ascii_of_string_of_list_ascii, map_rev. reflexivity.
Qed.

Lemma bytesString_cons (b : nat) (bs : list nat) :
  bytesString (b :: bs) = String (Ascii.ascii_of_nat b) (bytesString bs).
Proof. reflexivity. Qed.

Lemma stripBytes_sound (bs : list nat) :
  forall s t : string,
    stripBytes bs s = Some t -> s = (bytesString bs ++ t)%string.
Proof.
  induction bs as [|b bs IH]; intros s t H; simpl in H.
  - inversion H. reflexivity.
  - destruct s as [|a s]; [discriminate|].
    destruct (Nat.eqb_spec (Ascii.nat_of_ascii a) b) as [<-|];
      [|discriminate].
    rewrite bytesString_cons, append_cons, Ascii.ascii_nat_embedding.
    f_equal. apply IH, H.
Qed.

Lemma stripBytes_complete (bs : list nat) (t : string) :
  Forall (fun b => (b < 256)%nat) bs ->
  stripBytes bs (bytesString bs ++ t) = Some t.
Proof.
  induction 1 as [|b bs Hb _ IH]; [reflexivity|].
  rewrite bytesString_cons, append_cons. cbn [stripBytes].
  rewrite (Ascii.nat_ascii_embedding b Hb), Nat.eqb_refl. exact IH.
Qed.

Lemma stripSpace_sound (encs : list (list nat)) (back : bool) :
  forall s t : string,
    stripSpace encs back s = Some t ->
    exists bs : list nat,
      In bs encs
      /\ s = (bytesString (if back then List.rev bs else bs) ++ t)%string.
Proof.
  induction encs as [|bs encs IH]; intros s t H; [discriminate|].
  cbn [stripSpace] in H.
  destruct (stripBytes (if back then List.rev bs else bs) s) as [t'|] eqn:E.
  - inversion H; subst t'. exists bs. split; [left; reflexivity|].
    apply stripBytes_sound, E.
  - destruct (IH s t H) as (bs' & Hin & Hs). exists bs'.
    split; [right; exact Hin|exact Hs].
Qed.

Lemma stripSpace_complete (encs : list (list nat)) (back : bool)
    (bs : list nat) (t : string) :
  Forall (Forall (fun b => (b < 256)%nat)) encs ->
  In bs encs ->
  stripSpace encs back (bytesString (if back then List.rev bs else bs) ++ t)
  <> None.
Proof.
  intros Hall. induction Hall as [|bs0 encs Hb _ IH]; intros Hin;
    [contradiction|].
  cbn [stripSpace].
  destruct (stripBytes (if back then List.rev bs0 else bs0) _) eqn:E;
    [discriminate|].
  destruct Hin as [->|Hin]; [|exact (IH Hin)].
  rewrite stripBytes_complete in E; [discriminate|].
  destruct back; [apply List.Forall_rev|]; exact Hb.
Qed.

Lemma encodings_are_bytes :
  Forall (Forall (fun b => (b < 256)%nat)) spaceEncodings.
Proof.
  assert (H : forallb (forallb (fun b => Nat.ltb b 256)) spaceEncodings
              = true) by reflexivity.
  apply Forall_forall. intros bs Hbs. apply Forall_forall. intros b Hb.
  apply list_elem_of_In in Hbs. apply list_elem_of_In in Hb.
  rewrite forallb_forall in H. specialize (H bs Hbs).
  rewrite forallb_forall in H. apply Nat.ltb_lt, H, Hb.
Qed.

Lemma encodings_not_empty (bs : list nat) :
  In bs spaceEncodings -> bs <> [].
Proof.
  assert (H : forallb (fun l => negb (Nat.eqb (length l) 0)) spaceEncodings
              = true) by reflexivity.
  rewrite forallb_forall in H. intros Hin ->.
  specialize (H [] Hin). discriminate.
Qed.

(** The table of [TrimSpace] holds the encodings of the white-space runes,
    and nothing else. *)
Lemma encodings_are_white_space :
  map utf8 whiteSpaceRunes = map bytesString spaceEncodings.
Proof. reflexivity. Qed.

Lemma spaceRune_iff (e : string) : spaceRune e <-> spaceEnc false e.
Proof.
  unfold spaceRune, spaceEnc. split.
  - intros (r & Hr & ->).
    assert (In (utf8 r) (map bytesString spaceEncodings)) as H.
    { rewrite <- encodings_are_white_space. apply in_map, Hr. }
    apply in_map_iff in H as (bs & Hbs & Hin). eauto.
  - intros (bs & Hin & ->).
    assert (In (bytesString bs) (map utf8 whiteSpaceRunes)) as H.
    { rewrite encodings_are_white_space. apply in_map, Hin. }
    apply in_map_iff in H as (r & Hr & Hin'). eauto.
Qed.

Lemma spaceEnc_length (back : bool) (e : string) :
  spaceEnc back e -> (0 < String.length e)%nat.
Proof.
  intros (bs & Hin & ->). pose proof (encodings_not_empty bs Hin) as Hne.
  assert (Hne' : (if back then List.rev bs else bs) <> []).
  { destruct back; [|exact Hne]. intros H. apply Hne.
    rewrite <- (rev_involutive bs), H. reflexivity. }
  destruct (if back then List.rev bs else bs); [contradiction|].
  rewrite bytesString_cons. simpl. lia.
Qed.

Lemma stripSpace_empty (back : bool) :
  stripSpace spaceEncodings back "" = None.
Proof. destruct back; reflexivity. Qed.

(** What [trimN] does with enough fuel: it cuts off encodings of the table
    until the text starts with none. *)
Lemma trimN_spec (back : bool) :
  forall (fuel : nat) (s : string),
    (String.length s <= fuel)%nat ->
    exists lead : string,
      s = (lead ++ trimN fuel back s)%string
      /\ chain back lead
      /\ stripSpace spaceEncodings back (trimN fuel back s) = None.
Proof.
  induction fuel as [|fuel IH]; intros s Hlen.
  - destruct s; [|simpl in Hlen; lia].
    exists "". split; [reflexivity|]. split; [constructor|].
    apply stripSpace_empty.
  - cbn [trimN].
    destruct (stripSpace spaceEncodings back s) as [t|] eqn:E.
    + destruct (stripSpace_sound _ _ _ _ E) as (bs & Hin & Hs).
      assert (He : spaceEnc back
                     (bytesString (if back then List.rev bs else bs)))
        by (exists bs; auto).
      pose proof (spaceEnc_length _ _ He) as Hpos.
      assert (Ht : (String.length t <= fuel)%nat).
      { rewrite Hs, length_append in Hlen. lia. }
      destruct (IH t Ht) as (lead & Hlead & Hch & Hnone).
      exists (bytesString (if back then List.rev bs else bs) ++ lead)%string.
      split; [|split; [constructor; assumption|exact Hnone]].
      rewrite append_assoc, <- Hlead. exact Hs.
    + exists "". split; [reflexivity|]. split; [constructor|exact E].
Qed.

Lemma allSpace_of_chain (s : string) : chain false s -> allSpace s.
Proof.
  induction 1 as [|e s He _ IH]; constructor; [|exact IH].
  apply spaceRune_iff, He.
Qed.

Lemma allSpace_snoc (s e : string) :
  allSpace s -> spaceRune e -> allSpace (s ++ e).
Proof.
  intros Hs He. induction Hs as [|e0 s He0 _ IH].
  - rewrite append_nil_l, <- (append_nil_r e). constructor;
      [exact He|constructor].
  - rewrite append_assoc. constructor; assumption.
Qed.

Lemma allSpace_of_back_chain (s : string) :
  chain true s -> allSpace (reverse_string s).
Proof.
  induction 1 as [|e s He _ IH]; [constructor|].
  rewrite reverse_append. apply allSpace_snoc; [exact IH|].
  destruct He as (bs & Hin & ->).
  rewrite reverse_bytes, rev_involutive.
  apply spaceRune_iff. exists bs. auto.
Qed.

Lemma not_startsWithSpace (s : string) :
  stripSpace spaceEncodings false s = None -> ~ startsWithSpace s.
Proof.
  intros Hnone (e & t & He & ->).
  apply spaceRune_iff in He as (bs & Hin & ->).
  apply (stripSpace_complete spaceEncodings false bs t
           encodings_are_bytes Hin Hnone).
Qed.

Lemma not_endsWithSpace (s : string) :
  stripSpace spaceEncodings true (reverse_string s) = None ->
  ~ endsWithSpace s.
Proof.
  intros Hnone (e & t & He & ->).
  apply spaceRune_iff in He as (bs & Hin & ->).
  rewrite reverse_append, reverse_bytes in Hnone.
  apply (stripSpace_complete spaceEncodings true bs (reverse_string t)
           encodings_are_bytes Hin Hnone).
Qed.

(** [TrimSpace] cuts off white space only, at both ends, and leaves none at
    either end. *)
Lemma TrimSpace_trims (s : string) : trimmedOf s (TrimSpace s).
Proof.
  unfold TrimSpace, TrimLeft, TrimRight.
  destruct (trimN_spec false (String.length s) s (Nat.le_refl _))
    as (lead & Hs & Hlead & Hleft).
  set (u := trimN (String.length s) false s) in *.
  destruct (trimN_spec true (String.length (reverse_string u))
                       (reverse_string u) (Nat.le_refl _))
    as (back & Hr & Hback & Hright).
  set (t := trimN (String.length (reverse_string u)) true
                  (reverse_string u)) in *.
  assert (Hu : u = (reverse_string t ++ reverse_string back)%string).
  { rewrite <- (reverse_involutive u), Hr, reverse_append. reflexivity. }
  exists lead, (reverse_string back). split; [|split; [|split; [|split]]].
  - rewrite <- Hu. exact Hs.
  - apply allSpace_of_chain, Hlead.
  - apply allSpace_of_back_chain, Hback.
  - intros (e & x & He & Hx).
    apply (not_startsWithSpace u Hleft).
    exists e, (x ++ reverse_string back)%string. split; [exact He|].
    rewrite Hu, Hx, append_assoc. reflexivity.
  - apply not_endsWithSpace. rewrite reverse_involutive. exact Hright.
Qed.

Lemma allSpace_inv (s : string) :
  allSpace s -> s <> "" -> startsWithSpace s.
Proof.
  induction 1 as [|e s He Hs IH]; intros Hne; [contradiction|].
  exists e, s. auto.
Qed.

Lemma allSpace_inv_end (s : string) :
  allSpace s -> s <> "" -> endsWithSpace s.
Proof.
  induction 1 as [|e s He Hs IH]; intros Hne; [contradiction|].
  destruct s as [|a s'] eqn:Es.
  - exists e, "". rewrite append_nil_r. auto.
  - destruct IH as (e' & t & He' & Ht); [discriminate|].
    exists e', (e ++ t)%string. split; [exact He'|].
    rewrite Ht, append_assoc. reflexivity.
Qed.

(** A text without white space at its ends is returned as it is. *)
Lemma TrimSpace_unchanged (s : string) :
  ~ startsWithSpace s -> ~ endsWithSpace s -> TrimSpace s = s.
Proof.
  intros Hstart Hend.
  destruct (TrimSpace_trims s) as (lead & trail & Hs & Hl & Ht & _ & _).
  assert (lead = "") as ->.
  { destruct lead as [|a lead]; [reflexivity|]. exfalso. apply Hstart.
    destruct (allSpace_inv _ Hl) as (e & x & He & Hx); [discriminate|].
    exists e, (x ++ TrimSpace s ++ trail)%string. split; [exact He|].
    etransitivity; [exact Hs|]. rewrite Hx, append_assoc. reflexivity. }
  assert (trail = "") as ->.
  { destruct trail as [|a trail]; [reflexivity|]. exfalso. apply Hend.
    destruct (allSpace_inv_end _ Ht) as (e & x & He & Hx); [discriminate|].
    exists e, (TrimSpace s ++ x)%string. split; [exact He|].
    etransitivity; [exact Hs|].
    rewrite Hx, append_nil_l, append_assoc. reflexivity. }
  rewrite append_nil_l, append_nil_r in Hs. symmetry. exact Hs.
Qed.

(** ** MapIndices *)

Lemma search_results (r : regex) (n : nat) (s : string) :
  (MatchString r s = false /\ FindStringSubmatch r n s = [])
  \/ (exists (m : string) (cs : captures),
        MatchString r s = true
        /\ FindStringSubmatch r n s = m :: map (fun i => group i cs) (seq 1 n)).
Proof.
  unfold MatchString, FindStringSubmatch.
  destruct (search r s 0) as [[m cs]|]; [right; eauto|left; auto].
Qed.

Lemma len_snoc {A : Type} (l : list A) (x : A) : len (l ++ [x]) = len l + 1.
Proof. unfold len. rewrite length_app. simpl. lia. Qed.

Lemma MapIndices_step_eq (h : Header) (ii : list Z) (eib : ExtractionInfoBag)
    (col : string) :
  MapIndices_step h (ii, eib) col =
    (ii ++ [fst (IndexOf h col true)],
     match synthesis h col with
     | Some e => <[len ii := e]> eib
     | None => eib
     end).
Proof.
  unfold MapIndices_step, synthesis.
  destruct (IndexOf h col true) as [idx ok]. simpl fst.
  destruct (search_results rgx rgx_groups col) as [[Hm Hf]|(m & cs & Hm & Hf)];
    rewrite Hm, Hf; simpl; [reflexivity|].
  destruct (String.eqb_spec (group 2 cs) "LABELS") as [Heq|Hne];
    simpl; [|reflexivity].
  rewrite len_snoc, Heq.
  destruct (IndexOf h "LABELS" true) as [idl okl]. simpl.
  replace (len ii + 1 - 1) with (len ii) by lia. reflexivity.
Qed.

Lemma MapIndices_fold (h : Header) (cols : list string) :
  forall (ii : list Z) (eib : ExtractionInfoBag),
    let r := fold_left (MapIndices_step h) cols (ii, eib) in
    fst r = ii ++ map (fun c => fst (IndexOf h c true)) cols
    /\ forall k : Z,
         snd r !! k =
           match requestAt cols (len ii) k ≫= synthesis h with
           | Some e => Some e
           | None => eib !! k
           end.
Proof.
  induction cols as [|col cols IH]; intros ii eib; cbn [fold_left].
  - simpl. rewrite app_nil_r. split; [reflexivity|].
    intros k. unfold requestAt. destruct (decide (len ii <= k)); reflexivity.
  - rewrite MapIndices_step_eq. cbn zeta.
    destruct (IH (ii ++ [fst (IndexOf h col true)])
                 (match synthesis h col with
                  | Some e => <[len ii := e]> eib
                  | None => eib
                  end)) as [Hi Hb].
    split.
    + rewrite Hi, <- app_assoc. reflexivity.
    + intros k. rewrite Hb, len_snoc. unfold requestAt.
      destruct (decide (len ii + 1 <= k)) as [Hk|Hk].
      * destruct (decide (len ii <= k)) as [_|]; [|lia].
        replace (Z.to_nat (k - len ii))
          with (S (Z.to_nat (k - (len ii + 1)))) by lia.
        simpl.
        destruct (cols !! Z.to_nat (k - (len ii + 1)) ≫= synthesis h);
          [reflexivity|].
        destruct (synthesis h col); [|reflexivity].
        apply lookup_insert_ne. lia.
      * simpl. destruct (decide (len ii <= k)) as [Hk'|Hk'].
        -- assert (k = len ii) as -> by lia.
           rewrite Z.sub_diag. simpl.
           destruct (synthesis h col); [|reflexivity].
           apply lookup_insert_eq.
        -- simpl. destruct (synthesis h col); [|reflexivity].
           apply lookup_insert_ne. lia.
Qed.

Lemma MapIndices_fst (h : Header) (cols : list string) (wide : bool) :
  fst (MapIndices h cols wide) = map (fun c => fst (IndexOf h c true)) cols.
Proof.
  unfold MapIndices. destruct (MapIndices_fold h cols [] ∅) as [H _].
  exact H.
Qed.

Lemma MapIndices_snd (h : Header) (cols : list string) (wide : bool) (k : Z) :
  snd (MapIndices h cols wide) !! k = requestAt cols 0 k ≫= synthesis h.
Proof.
  unfold MapIndices. destruct (MapIndices_fold h cols [] ∅) as [_ H].
  rewrite H. change (len []) with 0.
  destruct (requestAt cols 0 k ≫= synthesis h); [reflexivity|].
  apply lookup_empty.
Qed.

(** C5. The index list of [MapIndices] has one entry for each request, in
    the order of the requests: the entry of a request is what [IndexOf]
    returns for it, which is an index of the header or the sentinel -1. *)
Theorem MapIndices_one_index_per_spec (h : Header) (cols : list string)
    (wide : bool) :
  length (fst (MapIndices h cols wide)) = length cols
  /\ (forall (i : nat) (col : string),
        cols !! i = Some col ->
        fst (MapIndices h cols wide) !! i = Some (fst (IndexOf h col true)))
  /\ Forall (fun idx => idx = -1 \/ 0 <= idx < len h)
            (fst (MapIndices h cols wide)).
Proof.
  rewrite MapIndices_fst. split; [|split].
  - apply length_map.
  - intros i col Hi. rewrite list_lookup_fmap, Hi. reflexivity.
  - apply Forall_forall. intros idx Hin.
    apply list_elem_of_In, in_map_iff in Hin as (c & <- & _).
    apply IndexOf_range.
Qed.

(** C9. [MapIndices] does not depend on its [wide] argument: both values
    give the same index list and the same bag, and a request is resolved
    among all the columns, the wide ones included. *)
Theorem MapIndices_ignores_wide (h : Header) (cols : list string) :
  MapIndices h cols true = MapIndices h cols false
  /\ forall (wide : bool) (i : nat) (col : string) (c : HeaderColumn),
       cols !! i = Some col -> c ∈ h -> Name c = col ->
       exists (idx : Z) (c' : HeaderColumn),
         fst (MapIndices h cols wide) !! i = Some idx
         /\ index h idx = Some c' /\ Name c' = col.
Proof.
  split; [reflexivity|].
  intros wide i col c Hi Hc Hn.
  rewrite MapIndices_fst, list_lookup_fmap, Hi. simpl.
  destruct (IndexOf h col true) as [idx ok] eqn:E.
  assert (ok = true) as ->.
  { change ok with (snd (idx, ok)). rewrite <- E.
    apply IndexOf_wide_iff. eauto. }
  apply IndexOf_found in E as (c' & Hidx & Hn' & _).
  exists idx, c'. auto.
Qed.

Lemma synthesis_Some (h : Header) (col : string) (e : ExtractionInfo) :
  synthesis h col = Some e <->
  exists m g1 g2 g3 : string,
    MatchString rgx col = true
    /\ FindStringSubmatch rgx rgx_groups col = [m; g1; g2; g3]
    /\ g2 = "LABELS"
    /\ e = mkExtractionInfo (fst (IndexOf h "LABELS" true))
                            (TrimSpace g1) "LABELS" g3.
Proof.
  unfold synthesis.
  destruct (search_results rgx rgx_groups col) as [[Hm Hf]|(m & cs & Hm & Hf)];
    rewrite Hf.
  - split; [discriminate|]. intros (? & ? & ? & ? & _ & ? & _). discriminate.
  - simpl. split.
    + destruct (String.eqb_spec (group 2 cs) "LABELS") as [Heq|Hne];
        [|discriminate].
      intros [= <-]. exists m, (group 1 cs), (group 2 cs), (group 3 cs).
      rewrite Heq. auto.
    + intros (m' & g1 & g2 & g3 & _ & [= -> -> -> ->] & Heq & ->).
      rewrite Heq. reflexivity.
Qed.


(** ** Customize *)

Lemma resolve_found (h : Header) (c : string) (idx : Z) :
  resolve h c = Some idx <-> IndexOf h c true = (idx, true).
Proof.
  unfold resolve. destruct (IndexOf h c true) as [i [|]]; split;
    intros H; inversion H; reflexivity.
Qed.

Lemma consumed_iff (h : Header) (cols : list string) (j : Z) :
  consumed h cols j = true <->
  exists c : string, c ∈ cols /\ IndexOf h c true = (j, true).
Proof.
  unfold consumed. rewrite existsb_exists. split.
  - intros (c & Hin & Hd). exists c. split; [apply list_elem_of_In, Hin|].
    apply resolve_found. apply bool_decide_eq_true_1 in Hd. exact Hd.
  - intros (c & Hin & Hr). exists c. split; [apply list_elem_of_In, Hin|].
    apply bool_decide_eq_true_2, resolve_found, Hr.
Qed.

Lemma consumed_cons (h : Header) (c : string) (cols : list string) (j : Z) :
  consumed h (c :: cols) j = true <->
  IndexOf h c true = (j, true) \/ consumed h cols j = true.
Proof.
  unfold consumed. simpl. rewrite orb_true_iff, bool_decide_eq_true.
  rewrite resolve_found. reflexivity.
Qed.

(** The first loop of [Customize] does not fail. It appends one column for
    each request and marks the indices the requests resolve to. *)
Lemma Customize_cols_spec (h : Header) (eib : ExtractionInfoBag)
    (cols : list string) :
  forall (a : nat) (cc : Header) (xx : gset Z),
  exists (pre : Header) (xx' : gset Z),
    Customize_cols h eib (Z.of_nat a) cols cc xx = Some (cc ++ pre, xx')
    /\ length pre = length cols
    /\ (forall j : Z, j ∈ xx' <-> j ∈ xx \/ consumed h cols j = true)
    /\ forall (i : nat) (c : string),
         cols !! i = Some c ->
         match IndexOf h c true with
         | (idx, true) =>
             exists hc : HeaderColumn,
               index h idx = Some hc /\ pre !! i = Some (setWide false hc)
         | (_, false) =>
             pre !! i =
               Some (namedColumn
                       (CustomName (bagAt eib (Z.of_nat (a + i)))))
         end.
Proof.
  induction cols as [|c cols IH]; intros a cc xx.
  - exists [], xx. simpl. rewrite app_nil_r.
    repeat split; auto.
    + intros [?|?]; [assumption|discriminate].
    + intros i c Hi. discriminate.
  - destruct (IndexOf h c true) as [idx [|]] eqn:E.
    + destruct (IndexOf_found _ _ _ _ E) as (hc & Hidx & _ & _).
      destruct (IH (S a) (cc ++ [setWide false (HeaderColumn_Clone hc)])
                   ({[idx]} ∪ xx))
        as (pre & xx' & Hrun & Hlen & Hxx & Hpre).
      exists (setWide false hc :: pre), xx'.
      split; [|split; [|split]].
      * cbn [Customize_cols]. rewrite E. cbn [negb]. rewrite Hidx. simpl.
        replace (Z.of_nat a + 1) with (Z.of_nat (S a)) by lia.
        rewrite Hrun, <- app_assoc. reflexivity.
      * simpl. rewrite Hlen. reflexivity.
      * intros j. rewrite Hxx, consumed_cons, elem_of_union,
          elem_of_singleton.
        split.
        -- intros [[->|?]|?]; auto.
        -- intros [?|[Hj|?]]; auto. left. left. congruence.
      * intros [|i] c' Hi; simpl in Hi.
        -- inversion Hi; subst c'. rewrite E. exists hc. auto.
        -- specialize (Hpre i c' Hi).
           replace (a + S i)%nat with (S a + i)%nat by lia. exact Hpre.
    + destruct (IH (S a)
                   (cc ++ [namedColumn
                             (CustomName (bagAt eib (Z.of_nat a)))]) xx)
        as (pre & xx' & Hrun & Hlen & Hxx & Hpre).
      exists (namedColumn (CustomName (bagAt eib (Z.of_nat a))) :: pre), xx'.
      split; [|split; [|split]].
      * cbn [Customize_cols]. rewrite E. cbn [negb].
        replace (Z.of_nat a + 1) with (Z.of_nat (S a)) by lia.
        rewrite Hrun, <- app_assoc. reflexivity.
      * simpl. rewrite Hlen. reflexivity.
      * intros j. rewrite Hxx, consumed_cons. split.
        -- intros [?|?]; auto.
        -- intros [?|[Hj|?]]; auto. congruence.
      * intros [|i] c' Hi; simpl in Hi.
        -- inversion Hi; subst c'. rewrite E.
           rewrite Nat.add_0_r. reflexivity.
        -- specialize (Hpre i c' Hi).
           replace (a + S i)%nat with (S a + i)%nat by lia. exact Hpre.
Qed.

Lemma keptFrom_cons (keep : Z -> bool) (a : nat) (c : HeaderColumn)
    (l : Header) :
  keptFrom keep a (c :: l) =
    if keep (Z.of_nat a) then c :: keptFrom keep (S a) l
    else keptFrom keep (S a) l.
Proof.
  unfold keptFrom. simpl. destruct (keep (Z.of_nat a)); reflexivity.
Qed.

Lemma keptFrom_ext (f g : Z -> bool) (a : nat) (l : Header) :
  (forall j, f j = g j) -> keptFrom f a l = keptFrom g a l.
Proof.
  intros H. unfold keptFrom. f_equal. apply List.filter_ext.
  intros p. apply H.
Qed.

Lemma keptFrom_length (keep : Z -> bool) (l : Header) :
  forall a : nat,
    length (keptFrom keep a l) =
    length (List.filter (fun j => keep (Z.of_nat j)) (seq a (length l))).
Proof.
  induction l as [|c l IH]; intros a; [reflexivity|].
  rewrite keptFrom_cons. simpl.
  destruct (keep (Z.of_nat a)); simpl; rewrite IH; reflexivity.
Qed.

Lemma keptFrom_lookup (keep : Z -> bool) (l : Header) :
  forall (a j : nat) (c : HeaderColumn),
    l !! j = Some c -> keep (Z.of_nat (a + j)) = true ->
    c ∈ keptFrom keep a l.
Proof.
  induction l as [|c0 l IH]; intros a j c Hj Hk; [discriminate|].
  rewrite keptFrom_cons. destruct j as [|j]; simpl in Hj.
  - inversion Hj; subst c0. rewrite Nat.add_0_r in Hk. rewrite Hk.
    apply elem_of_cons. left. reflexivity.
  - assert (c ∈ keptFrom keep (S a) l) as Hin.
    { apply (IH (S a) j); [exact Hj|].
      replace (S a + j)%nat with (a + S j)%nat by lia. exact Hk. }
    destruct (keep (Z.of_nat a)); [apply elem_of_cons; right|]; exact Hin.
Qed.

(** The second loop of [Customize] appends the columns whose index is not
    marked, each with [Wide] set, in the order of the header. *)
Lemma Customize_wide_eq (h : Header) :
  forall (a : nat) (xx : gset Z) (cc : Header),
    Customize_wide (Z.of_nat a) h xx cc =
    cc ++ map (setWide true)
              (keptFrom (fun j => negb (bool_decide (j ∈ xx))) a h).
Proof.
  induction h as [|c h IH]; intros a xx cc.
  - simpl. rewrite app_nil_r. reflexivity.
  - rewrite keptFrom_cons. cbn [Customize_wide].
    replace (Z.of_nat a + 1) with (Z.of_nat (S a)) by lia.
    destruct (decide (Z.of_nat a ∈ xx)) as [Hin|Hout].
    + rewrite (bool_decide_eq_true_2 _ Hin). simpl. apply IH.
    + rewrite (bool_decide_eq_false_2 _ Hout). simpl.
      rewrite IH, <- app_assoc. reflexivity.
Qed.

Lemma len_zero_iff {A : Type} (l : list A) : (len l =? 0) = true <-> l = [].
Proof.
  unfold len. rewrite Z.eqb_eq. destruct l; simpl; split;
    try reflexivity; try discriminate; lia.
Qed.

(** [Customize] on a list of requests that is not empty: it does not fail,
    the columns of the requests come first, the same for both values of
    [wide], and the unmatched columns follow when [wide] is set. *)
Lemma Customize_nonempty (h : Header) (cols : list string) :
  cols <> [] ->
  exists pre : Header,
    Customize h cols false = Some pre
    /\ Customize h cols true =
         Some (pre ++ map (setWide true) (unmatched h cols))
    /\ length pre = length cols
    /\ forall (i : nat) (c : string),
         cols !! i = Some c ->
         match IndexOf h c true with
         | (idx, true) =>
             exists hc : HeaderColumn,
               index h idx = Some hc /\ pre !! i = Some (setWide false hc)
         | (_, false) =>
             pre !! i =
               Some (namedColumn
                       (CustomName
                          (bagAt (snd (MapIndices h cols false))
                                 (Z.of_nat i))))
         end.
Proof.
  intros Hne.
  assert (Hlen : (len cols =? 0) = false).
  { destruct (len cols =? 0) eqn:E; [|reflexivity].
    apply len_zero_iff in E. contradiction. }
  destruct (Customize_cols_spec h (snd (MapIndices h cols false)) cols
                                0%nat [] ∅)
    as (pre & xx & Hrun & Hl & Hxx & Hpre).
  exists pre. unfold Customize. rewrite Hlen.
  change (MapIndices h cols true) with (MapIndices h cols false).
  destruct (MapIndices h cols false) as [ii eib]. simpl snd in *.
  change (Z.of_nat 0) with 0 in Hrun. rewrite Hrun. simpl.
  split; [reflexivity|]. split; [|split; [exact Hl|exact Hpre]].
  f_equal. change 0 with (Z.of_nat 0). rewrite Customize_wide_eq.
  f_equal. f_equal. unfold unmatched. apply keptFrom_ext.
  intros j. f_equal. apply eq_true_iff_eq.
  rewrite bool_decide_eq_true, Hxx. split.
  - intros [Hin|?]; [|assumption]. apply elem_of_empty in Hin. contradiction.
  - auto.
Qed.

Lemma bag_custom_name (h : Header) (cols : list string) (wide : bool)
    (i : nat) (c : string) :
  cols !! i = Some c ->
  CustomName (bagAt (snd (MapIndices h cols wide)) (Z.of_nat i))
  = capturedName c
  /\ capturedName c =
       match snd (MapIndices h cols wide) !! Z.of_nat i with
       | Some e => CustomName e
       | None => ""
       end.
Proof.
  intros Hc. unfold bagAt. rewrite MapIndices_snd. unfold requestAt.
  destruct (decide (0 <= Z.of_nat i)) as [_|]; [|lia].
  rewrite Z.sub_0_r, Nat2Z.id, Hc. simpl.
  unfold synthesis, capturedName.
  destruct (FindStringSubmatch rgx rgx_groups c)
    as [|m [|g1 [|g2 [|g3 [|g4 l]]]]]; simpl; auto.
  destruct (String.eqb g2 "LABELS"); simpl; auto.
Qed.

(** C6. With no request, [Customize] returns the header it was given, for
    both values of [wide]. *)
Theorem Customize_no_request (h : Header) (wide : bool) :
  Customize h [] wide = Some h.
Proof. reflexivity. Qed.

(** C3. With requests and [wide] unset, [Customize] returns as many columns
    as there are requests. At the position of a request that [IndexOf]
    finds among all the columns stands a copy of the column found, with
    [Wide] unset. At the position of any other request stands a new column
    that has the custom name kept for that request, the empty string when
    none was kept, and the zero value in every other field. *)
Theorem Customize_narrow_columns (h : Header) (cols : list string) :
  cols <> [] ->
  exists res : Header,
    Customize h cols false = Some res
    /\ length res = length cols
    /\ forall (i : nat) (c : string),
         cols !! i = Some c ->
         (forall idx : Z,
            IndexOf h c true = (idx, true) ->
            exists hc : HeaderColumn,
              index h idx = Some hc
              /\ 0 <= idx < len h
              /\ h !! Z.to_nat idx = Some hc
              /\ res !! i =
                   Some (mkHeaderColumn (Name hc) (Align hc) (Decorator hc)
                           false (MX hc) (Time hc) (Capacity hc) (VS hc)))
         /\ (snd (IndexOf h c true) = false ->
             res !! i =
               Some (mkHeaderColumn (capturedName c) 0 None
                       false false false false false)
             /\ capturedName c =
                  match snd (MapIndices h cols false) !! Z.of_nat i with
                  | Some e => CustomName e
                  | None => ""
                  end).
Proof.
  intros Hne.
  destruct (Customize_nonempty h cols Hne) as (pre & Hf & _ & Hl & Hpre).
  exists pre. split; [exact Hf|]. split; [exact Hl|].
  intros i c Hc. specialize (Hpre i c Hc).
  destruct (bag_custom_name h cols false i c Hc) as [Hn1 Hn2].
  destruct (IndexOf h c true) as [idx [|]]; split.
  - intros idx' [= <-]. destruct Hpre as (hc & Hidx & Hp).
    destruct (proj1 (index_Some h idx hc) Hidx) as [Hr Hlk].
    exists hc. split; [exact Hidx|]. split; [exact Hr|].
    split; [exact Hlk|exact Hp].
  - discriminate.
  - discriminate.
  - intros _. rewrite Hpre, Hn1. split; [reflexivity|exact Hn2].
Qed.

(** The requests NAME and grp: LABELS[app] on the sample header. *)
Lemma Customize_narrow_columns_witness :
  sampleRequests <> []
  /\ exists res : Header,
       Customize sampleHeader sampleRequests false = Some res
       /\ length res = length sampleRequests
       /\ forall (i : nat) (c : string),
            sampleRequests !! i = Some c ->
            (forall idx : Z,
               IndexOf sampleHeader c true = (idx, true) ->
               exists hc : HeaderColumn,
                 index sampleHeader idx = Some hc
                 /\ 0 <= idx < len sampleHeader
                 /\ sampleHeader !! Z.to_nat idx = Some hc
                 /\ res !! i =
                      Some (mkHeaderColumn (Name hc) (Align hc) (Decorator hc)
                              false (MX hc) (Time hc) (Capacity hc) (VS hc)))
            /\ (snd (IndexOf sampleHeader c true) = false ->
                res !! i =
                  Some (mkHeaderColumn (capturedName c) 0 None
                          false false false false false)
                /\ capturedName c =
                     match snd (MapIndices sampleHeader sampleRequests false)
                           !! Z.of_nat i with
                     | Some e => CustomName e
                     | None => ""
                     end).
Proof.
  split; [discriminate|].
  apply (Customize_narrow_columns sampleHeader sampleRequests).
  discriminate.
Defined.

(** C2. With requests and [wide] set, [Customize] returns the columns of
    the requests followed by every column of the header to whose index no
    request resolves, copied with [Wide] set, in the order of the header;
    its length is the number of requests plus the number of those
    columns. *)
Theorem Customize_wide_columns (h : Header) (cols : list string) :
  cols <> [] ->
  exists pre res : Header,
    Customize h cols false = Some pre
    /\ Customize h cols true = Some res
    /\ length pre = length cols
    /\ res =
         pre ++ map (fun c : HeaderColumn =>
                       mkHeaderColumn (Name c) (Align c) (Decorator c)
                         true (MX c) (Time c) (Capacity c) (VS c))
                    (unmatched h cols)
    /\ length res = (length cols + unmatchedCount h cols)%nat
    /\ forall j : Z,
         consumed h cols j = true <->
         exists c : string, c ∈ cols /\ IndexOf h c true = (j, true).
Proof.
  intros Hne.
  destruct (Customize_nonempty h cols Hne) as (pre & Hf & Ht & Hl & _).
  exists pre, (pre ++ map (setWide true) (unmatched h cols)).
  repeat split; auto.
  - rewrite length_app, length_map, Hl. f_equal.
    unfold unmatched, unmatchedCount. apply keptFrom_length.
  - apply consumed_iff.
  - apply consumed_iff.
Qed.

(** The same requests with [wide] set. *)
Lemma Customize_wide_columns_witness :
  sampleRequests <> []
  /\ exists pre res : Header,
       Customize sampleHeader sampleRequests false = Some pre
       /\ Customize sampleHeader sampleRequests true = Some res
       /\ length pre = length sampleRequests
       /\ res =
            pre ++ map (fun c : HeaderColumn =>
                          mkHeaderColumn (Name c) (Align c) (Decorator c)
                            true (MX c) (Time c) (Capacity c) (VS c))
                       (unmatched sampleHeader sampleRequests)
       /\ length res =
            (length sampleRequests
             + unmatchedCount sampleHeader sampleRequests)%nat
       /\ forall j : Z,
            consumed sampleHeader sampleRequests j = true <->
            exists c : string,
              c ∈ sampleRequests
              /\ IndexOf sampleHeader c true = (j, true).
Proof.
  split; [discriminate|].
  apply (Customize_wide_columns sampleHeader sampleRequests).
  discriminate.
Defined.

(** C10. With requests and [wide] set, [Customize] loses no column of the
    header: a column to whose index some request resolves stands, copied
    with [Wide] unset, at the position of that request, and any other
    column stands, copied with [Wide] set, after the columns of the
    requests. *)
Theorem Customize_wide_keeps_columns (h : Header) (cols : list string) :
  cols <> [] ->
  exists res : Header,
    Customize h cols true = Some res
    /\ forall (j : nat) (hc : HeaderColumn),
         h !! j = Some hc ->
         (exists (i : nat) (c : string),
            cols !! i = Some c
            /\ IndexOf h c true = (Z.of_nat j, true)
            /\ res !! i =
                 Some (mkHeaderColumn (Name hc) (Align hc) (Decorator hc)
                         false (MX hc) (Time hc) (Capacity hc) (VS hc)))
         \/ ((forall c : string,
                c ∈ cols -> IndexOf h c true <> (Z.of_nat j, true))
             /\ exists k : nat,
                  (length cols <= k)%nat
                  /\ res !! k =
                       Some (mkHeaderColumn (Name hc) (Align hc)
                               (Decorator hc) true (MX hc) (Time hc)
                               (Capacity hc) (VS hc))).
Proof.
  intros Hne.
  destruct (Customize_nonempty h cols Hne) as (pre & _ & Ht & Hl & Hpre).
  exists (pre ++ map (setWide true) (unmatched h cols)).
  split; [exact Ht|]. intros j hc Hj.
  destruct (consumed h cols (Z.of_nat j)) eqn:Ec.
  - left. apply consumed_iff in Ec as (c & Hin & Hr).
    apply list_elem_of_lookup in Hin as [i Hi].
    exists i, c. split; [exact Hi|]. split; [exact Hr|].
    specialize (Hpre i c Hi). rewrite Hr in Hpre.
    destruct Hpre as (hc' & Hidx & Hp).
    rewrite index_of_nat, Hj in Hidx. inversion Hidx; subst hc'.
    apply lookup_app_l_Some. exact Hp.
  - right. split.
    + intros c Hin Hr.
      assert (consumed h cols (Z.of_nat j) = true) as Hc
        by (apply consumed_iff; eauto).
      congruence.
    + assert (hc ∈ unmatched h cols) as Hin.
      { unfold unmatched. apply (keptFrom_lookup _ h 0 j hc Hj).
        simpl. rewrite Ec. reflexivity. }
      apply (list_elem_of_fmap_2 (setWide true)) in Hin.
      apply list_elem_of_lookup in Hin as [k Hk].
      exists (length pre + k)%nat. split; [lia|].
      rewrite lookup_app_r by lia.
      replace (length pre + k - length pre)%nat with k by lia.
      exact Hk.
Qed.

(** No column of the sample header is lost. *)
Lemma Customize_wide_keeps_columns_witness :
  sampleRequests <> []
  /\ exists res : Header,
       Customize sampleHeader sampleRequests true = Some res
       /\ forall (j : nat) (hc : HeaderColumn),
            sampleHeader !! j = Some hc ->
            (exists (i : nat) (c : string),
               sampleRequests !! i = Some c
               /\ IndexOf sampleHeader c true = (Z.of_nat j, true)
               /\ res !! i =
                    Some (mkHeaderColumn (Name hc) (Align hc) (Decorator hc)
                            false (MX hc) (Time hc) (Capacity hc) (VS hc)))
            \/ ((forall c : string,
                   c ∈ sampleRequests ->
                   IndexOf sampleHeader c true <> (Z.of_nat j, true))
                /\ exists k : nat,
                     (length sampleRequests <= k)%nat
                     /\ res !! k =
                          Some (mkHeaderColumn (Name hc) (Align hc)
                                  (Decorator hc) true (MX hc) (Time hc)
                                  (Capacity hc) (VS hc))).
Proof.
  split; [discriminate|].
  apply (Customize_wide_keeps_columns sampleHeader sampleRequests).
  discriminate.
Defined.

(** ** A request that names no column and asks for no extraction *)

Lemma captured_name_none (h : Header) (u : string) :
  synthesis h u = None -> capturedName u = "".
Proof.
  unfold synthesis, capturedName.
  destruct (FindStringSubmatch rgx rgx_groups u)
    as [|m [|g1 [|g2 [|g3 [|g4 l]]]]]; simpl; auto.
  destruct (String.eqb g2 "LABELS"); [discriminate|reflexivity].
Qed.

Lemma IndexOf_missing_fst (h : Header) (u : string) :
  snd (IndexOf h u true) = false -> fst (IndexOf h u true) = -1.
Proof.
  destruct (IndexOf h u true) as [idx ok] eqn:E. simpl. intros ->.
  apply IndexOf_missing in E. exact E.
Qed.

Lemma keptFrom_all (keep : Z -> bool) (l : Header) :
  (forall j, keep j = true) -> forall a : nat, keptFrom keep a l = l.
Proof.
  intros H. induction l as [|c l IH]; intros a; [reflexivity|].
  rewrite keptFrom_cons, H, IH. reflexivity.
Qed.

Lemma consumed_missing (h : Header) (u : string) (j : Z) :
  snd (IndexOf h u true) = false -> consumed h [u] j = false.
Proof.
  intros Hm. destruct (consumed h [u] j) eqn:E; [|reflexivity].
  apply consumed_iff in E as (c & Hin & Hr).
  apply list_elem_of_singleton in Hin. subst c.
  rewrite Hr in Hm. discriminate.
Qed.

(** C7, amended. A request that names no column and asks for no supported
    extraction stops nothing. Alone, it gives the index list [-1] and the
    empty bag; [Customize] returns one column with the empty name when
    [wide] is unset, and that column followed by every column of the
    header with [Wide] set when [wide] is set. Among other requests it
    gives the index -1 and the column with the empty name at its own
    position, and the other requests are resolved as they are without
    it. *)
Theorem unknown_request_degrades (h : Header) (u : string) :
  snd (IndexOf h u true) = false ->
  synthesis h u = None ->
  (forall wide : bool, MapIndices h [u] wide = ([-1], ∅))
  /\ Customize h [u] false =
       Some [mkHeaderColumn "" 0 None false false false false false]
  /\ Customize h [u] true =
       Some (mkHeaderColumn "" 0 None false false false false false
             :: map (fun c : HeaderColumn =>
                       mkHeaderColumn (Name c) (Align c) (Decorator c)
                         true (MX c) (Time c) (Capacity c) (VS c)) h)
  /\ forall (before after : list string) (wide : bool),
       fst (MapIndices h (before ++ u :: after) wide) =
         fst (MapIndices h before wide)
         ++ -1 :: fst (MapIndices h after wide)
       /\ exists res : Header,
            Customize h (before ++ u :: after) wide = Some res
            /\ res !! length before =
                 Some (mkHeaderColumn "" 0 None
                         false false false false false)
            /\ forall (i : nat) (c : string) (idx : Z),
                 (before ++ u :: after) !! i = Some c ->
                 IndexOf h c true = (idx, true) ->
                 exists hc : HeaderColumn,
                   index h idx = Some hc
                   /\ 0 <= idx < len h
                   /\ h !! Z.to_nat idx = Some hc
                   /\ res !! i =
                        Some (mkHeaderColumn (Name hc) (Align hc)
                                (Decorator hc) false (MX hc) (Time hc)
                                (Capacity hc) (VS hc)).
Proof.
  intros Hmiss Hsyn.
  pose proof (captured_name_none h u Hsyn) as Hname.
  assert (Hone : [u] <> []) by discriminate.
  destruct (Customize_nonempty h [u] Hone) as (pre & Hf & Ht & Hl & Hpre).
  assert (Hpre0 : pre = [namedColumn ""]).
  { specialize (Hpre 0%nat u eq_refl).
    destruct (bag_custom_name h [u] false 0 u eq_refl) as [Hb _].
    destruct (IndexOf h u true) as [idx [|]]; [discriminate|].
    rewrite Hb, Hname in Hpre.
    destruct pre as [|c0 [|c1 pre]]; try discriminate.
    simpl in Hpre. inversion Hpre. reflexivity. }
  subst pre.
  split; [|split; [exact Hf|split]].
  - intros wide. unfold MapIndices. cbn [fold_left].
    rewrite MapIndices_step_eq, Hsyn, (IndexOf_missing_fst h u Hmiss).
    reflexivity.
  - rewrite Ht. unfold unmatched.
    rewrite keptFrom_all; [reflexivity|].
    intros j. rewrite (consumed_missing h u j Hmiss). reflexivity.
  - intros before after wide. split.
    + rewrite !MapIndices_fst, map_app. simpl.
      rewrite (IndexOf_missing_fst h u Hmiss). reflexivity.
    + assert (Hne : before ++ u :: after <> [])
        by (destruct before; discriminate).
      destruct (Customize_nonempty h _ Hne) as (pre & Hf' & Ht' & Hl' & Hpre').
      assert (Hmid : (before ++ u :: after) !! length before = Some u)
        by apply list_lookup_middle, eq_refl.
      assert (Hu : pre !! length before = Some (namedColumn "")).
      { specialize (Hpre' _ _ Hmid).
        destruct (bag_custom_name h _ false _ _ Hmid) as [Hb _].
        destruct (IndexOf h u true) as [idx [|]]; [discriminate|].
        rewrite Hb, Hname in Hpre'. exact Hpre'. }
      assert (Hres : forall (i : nat) (c : string) (idx : Z),
                 (before ++ u :: after) !! i = Some c ->
                 IndexOf h c true = (idx, true) ->
                 exists hc : HeaderColumn,
                   index h idx = Some hc
                   /\ pre !! i = Some (setWide false hc)).
      { intros i c idx Hi Hr. specialize (Hpre' i c Hi).
        rewrite Hr in Hpre'. exact Hpre'. }
      destruct wide.
      * eexists. split; [exact Ht'|]. split.
        -- apply lookup_app_l_Some. exact Hu.
        -- intros i c idx Hi Hr.
           destruct (Hres i c idx Hi Hr) as (hc & Hx & Hp).
           destruct (proj1 (index_Some h idx hc) Hx) as [Hr' Hlk].
           exists hc. split; [exact Hx|]. split; [exact Hr'|].
           split; [exact Hlk|].
           apply lookup_app_l_Some. exact Hp.
      * exists pre. split; [exact Hf'|]. split; [exact Hu|].
        intros i c idx Hi Hr.
        destruct (Hres i c idx Hi Hr) as (hc & Hx & Hp).
        destruct (proj1 (index_Some h idx hc) Hx) as [Hr' Hlk].
        exists hc. split; [exact Hx|]. split; [exact Hr'|].
        split; [exact Hlk|exact Hp].
Qed.

(** The request UNKNOWN on the sample header. *)
Lemma unknown_request_degrades_witness :
  snd (IndexOf sampleHeader "UNKNOWN" true) = false
  /\ synthesis sampleHeader "UNKNOWN" = None
  /\ (forall wide : bool,
        MapIndices sampleHeader ["UNKNOWN"] wide = ([-1], ∅))
  /\ Customize sampleHeader ["UNKNOWN"] false =
       Some [mkHeaderColumn "" 0 None false false false false false]
  /\ Customize sampleHeader ["UNKNOWN"] true =
       Some (mkHeaderColumn "" 0 None false false false false false
             :: map (fun c : HeaderColumn =>
                       mkHeaderColumn (Name c) (Align c) (Decorator c)
                         true (MX c) (Time c) (Capacity c) (VS c))
                    sampleHeader)
  /\ forall (before after : list string) (wide : bool),
       fst (MapIndices sampleHeader (before ++ "UNKNOWN" :: after) wide) =
         fst (MapIndices sampleHeader before wide)
         ++ -1 :: fst (MapIndices sampleHeader after wide)
       /\ exists res : Header,
            Customize sampleHeader (before ++ "UNKNOWN" :: after) wide
            = Some res
            /\ res !! length before =
                 Some (mkHeaderColumn "" 0 None
                         false false false false false)
            /\ forall (i : nat) (c : string) (idx : Z),
                 (before ++ "UNKNOWN" :: after) !! i = Some c ->
                 IndexOf sampleHeader c true = (idx, true) ->
                 exists hc : HeaderColumn,
                   index sampleHeader idx = Some hc
                   /\ 0 <= idx < len sampleHeader
                   /\ sampleHeader !! Z.to_nat idx = Some hc
                   /\ res !! i =
                        Some (mkHeaderColumn (Name hc) (Align hc)
                                (Decorator hc) false (MX hc) (Time hc)
                                (Capacity hc) (VS hc)).
Proof.
  split; [reflexivity|]. split; [reflexivity|].
  apply (unknown_request_degrades sampleHeader "UNKNOWN"); reflexivity.
Defined.

(** C7 as stated fails when [wide] is set: for a header of one column, the
    request UNKNOWN names no column and does not match [rgx], and
    [Customize] returns two columns. *)
Lemma unknown_request_wide_counterexample :
  snd (IndexOf [mkHeaderColumn "NAME" 0 None false false false false false]
               "UNKNOWN" true) = false
  /\ MatchString rgx "UNKNOWN" = false
  /\ Customize [mkHeaderColumn "NAME" 0 None false false false false false]
               ["UNKNOWN"] true =
       Some [mkHeaderColumn "" 0 None false false false false false;
             mkHeaderColumn "NAME" 0 None true false false false false]
  /\ ~ (exists c : HeaderColumn,
          Customize
            [mkHeaderColumn "NAME" 0 None false false false false false]
            ["UNKNOWN"] true = Some [c]).
Proof.
  assert (H : Customize
                [mkHeaderColumn "NAME" 0 None false false false false false]
                ["UNKNOWN"] true =
              Some [mkHeaderColumn "" 0 None false false false false false;
                    mkHeaderColumn "NAME" 0 None
                      true false false false false])
    by (vm_compute; reflexivity).
  split; [reflexivity|]. split; [reflexivity|]. split; [exact H|].
  intros [c Hc]. rewrite H in Hc. discriminate.
Qed.

(** ** Diff *)

Lemma deepEqual_column_iff (c1 c2 : HeaderColumn) :
  deepEqual_column c1 c2 = true <-> c1 = c2 /\ Decorator c1 = None.
Proof.
  unfold deepEqual_column.
  rewrite !andb_true_iff, String.eqb_eq, Z.eqb_eq, !Bool.eqb_true_iff.
  destruct c1 as [n1 a1 d1 w1 m1 t1 p1 v1], c2 as [n2 a2 d2 w2 m2 t2 p2 v2].
  simpl. split.
  - intros [[[[[[[-> ->] Hd] ->] ->] ->] ->] ->].
    destruct d1, d2; try discriminate. auto.
  - intros [[= -> -> -> -> -> -> -> ->] ->]. repeat split; reflexivity.
Qed.

Lemma deepEqual_elems_iff (l1 l2 : Header) :
  deepEqual_elems l1 l2 = true <->
  l1 = l2 /\ Forall (fun c => Decorator c = None) l1.
Proof.
  revert l2. induction l1 as [|c1 l1 IH]; intros [|c2 l2]; simpl.
  - split; auto.
  - split; [discriminate|]. intros [? _]. discriminate.
  - split; [discriminate|]. intros [? _]. discriminate.
  - rewrite andb_true_iff, deepEqual_column_iff, IH. split.
    + intros [[-> Hd] [-> Hall]]. split; [reflexivity|].
      constructor; assumption.
    + intros [[= -> ->] Hall]. inversion Hall; subst. auto.
Qed.

Lemma DeepEqual_iff (h1 h2 : HeaderValue) :
  DeepEqual h1 h2 = true <->
  isNil h1 = isNil h2
  /\ length (hv_cols h1) = length (hv_cols h2)
  /\ (hv_data h1 = hv_data h2
      \/ (hv_cols h1 = hv_cols h2
          /\ Forall (fun c => Decorator c = None) (hv_cols h1))).
Proof.
  unfold DeepEqual.
  destruct (Bool.eqb (isNil h1) (isNil h2)) eqn:En; simpl.
  - apply Bool.eqb_prop in En.
    destruct (len (hv_cols h1) =? len (hv_cols h2)) eqn:El; simpl.
    + apply Z.eqb_eq in El. unfold len in El. apply Nat2Z.inj in El.
      destruct (bool_decide (hv_data h1 = hv_data h2)) eqn:Ed.
      * apply bool_decide_eq_true_1 in Ed. split; auto.
      * apply bool_decide_eq_false_1 in Ed.
        rewrite deepEqual_elems_iff. split.
        -- intros H. auto.
        -- intros (_ & _ & [?|H]); [contradiction|exact H].
    + apply Z.eqb_neq in El. unfold len in El.
      split; [discriminate|]. intros (_ & Hl & _). lia.
  - apply Bool.eqb_false_iff in En.
    split; [discriminate|]. intros (? & _). contradiction.
Qed.

(** C1, amended. [Diff] returns true for headers of different lengths. For
    headers of the same length it returns false exactly when both are
    [nil] or neither is, and they start at the same address or are equal
    column by column with no decorator in any column. It returns true
    whenever the columns of the two headers differ. *)
Theorem Diff_spec (h1 h2 : HeaderValue) :
  (length (hv_cols h1) <> length (hv_cols h2) -> Diff h1 h2 = true)
  /\ (Diff h1 h2 = false <->
      length (hv_cols h1) = length (hv_cols h2)
      /\ isNil h1 = isNil h2
      /\ (hv_data h1 = hv_data h2
          \/ (hv_cols h1 = hv_cols h2
              /\ Forall (fun c => Decorator c = None) (hv_cols h1))))
  /\ (coherent h1 h2 -> hv_cols h1 <> hv_cols h2 -> Diff h1 h2 = true).
Proof.
  assert (Hiff : Diff h1 h2 = false <->
      length (hv_cols h1) = length (hv_cols h2)
      /\ isNil h1 = isNil h2
      /\ (hv_data h1 = hv_data h2
          \/ (hv_cols h1 = hv_cols h2
              /\ Forall (fun c => Decorator c = None) (hv_cols h1)))).
  { unfold Diff.
    destruct (len (hv_cols h1) =? len (hv_cols h2)) eqn:El; simpl.
    - rewrite negb_false_iff, DeepEqual_iff. tauto.
    - apply Z.eqb_neq in El. unfold len in El.
      split; [discriminate|]. intros (Hl & _). lia. }
  split; [|split; [exact Hiff|]].
  - intros Hne. apply not_false_iff_true. intros E.
    apply Hiff in E as [? _]. contradiction.
  - intros Hco Hne. apply not_false_iff_true. intros E.
    apply Hiff in E as (Hl & _ & [Hd|[Hc _]]); [|contradiction].
    elim Hne. apply Hco; assumption.
Qed.

(** C1 as stated fails for identical headers: two headers with the same
    single column, which carries a decorator, stored at different
    addresses, and the [nil] header against an empty one. *)
Lemma Diff_identical_counterexample :
  (hv_cols (decoratedAt 1) = hv_cols (decoratedAt 2)
   /\ Diff (decoratedAt 1) (decoratedAt 2) = true)
  /\ (hv_cols nilHeader = hv_cols emptyHeader
      /\ Diff nilHeader emptyHeader = true).
Proof. repeat split; reflexivity. Qed.

(** ** The behaviour on sample values *)

Example rgx_with_custom_name :
  FindStringSubmatch rgx rgx_groups "grp: LABELS[app]"
  = ["grp: LABELS[app]"; "grp"; "LABELS"; "app"].
Proof. reflexivity. Qed.

Example rgx_without_custom_name :
  FindStringSubmatch rgx rgx_groups "LABELS[app]"
  = ["LABELS[app]"; ""; "LABELS"; "app"].
Proof. reflexivity. Qed.

Example rgx_longest_header_name :
  FindStringSubmatch rgx rgx_groups "a:b:c[d][e]"
  = ["a:b:c[d][e]"; "a"; "b:c[d]"; "e"].
Proof. reflexivity. Qed.

Example rgx_plain_name : FindStringSubmatch rgx rgx_groups "NAME" = [].
Proof. reflexivity. Qed.

Example TrimSpace_blanks : TrimSpace "  grp " = "grp".
Proof. reflexivity. Qed.

Example TrimSpace_no_break_space :
  TrimSpace (String (chr 194) (String (chr 160) "grp")) = "grp".
Proof. reflexivity. Qed.

Example MapIndices_sample :
  MapIndices sampleHeader sampleRequests false
  = ([0; -1], {[1 := mkExtractionInfo 2 "grp" "LABELS" "app"]}).
Proof. vm_compute. reflexivity. Qed.

Example Customize_sample_narrow :
  Customize sampleHeader sampleRequests false
  = Some [plainColumn "NAME"; namedColumn "grp"].
Proof. vm_compute. reflexivity. Qed.

Example Customize_sample_wide :
  Customize sampleHeader sampleRequests true
  = Some [plainColumn "NAME"; namedColumn "grp";
          setWide true (plainColumn "AGE");
          setWide true (plainColumn "LABELS")].
Proof. vm_compute. reflexivity. Qed.

Example Diff_same_storage :
  Diff (decoratedAt 1) (decoratedAt 1) = false.
Proof. reflexivity. Qed.

(** * Further properties *)

(** ** IndexOf *)

Lemma IndexOf_found_iff (h : Header) (n : string) (w : bool) :
  snd (IndexOf h n w) = true <->
  exists c : HeaderColumn,
    c ∈ h /\ Name c = n /\ (Wide c = false \/ w = true).
Proof.
  destruct (IndexOf h n w) as [idx [|]] eqn:E; simpl; split.
  - intros _.
    apply IndexOf_from_found in E as (j & c & _ & Hj & Hn & Hw & _).
    exists c. split; [|auto]. apply list_elem_of_lookup. eauto.
  - reflexivity.
  - discriminate.
  - intros (c & Hc & Hn & Hw).
    apply IndexOf_from_missing in E as [_ Hall].
    destruct (Hall c Hc Hn) as [Hw1 Hw2].
    destruct Hw as [Hw|Hw]; congruence.
Qed.

(** X1. [IndexOf] returns the first index at which a column has the name
    and, unless wide columns are included, is not wide; it reports that
    there is none, with the index -1, exactly when no column qualifies. *)
Theorem IndexOf_first_match (h : Header) (n : string) (w : bool) :
  (forall idx : Z,
     IndexOf h n w = (idx, true) <->
     exists (j : nat) (c : HeaderColumn),
       idx = Z.of_nat j /\ h !! j = Some c /\ Name c = n
       /\ (Wide c = false \/ w = true)
       /\ forall (j' : nat) (c' : HeaderColumn),
            (j' < j)%nat -> h !! j' = Some c' ->
            (Wide c' = true /\ w = false) \/ Name c' <> n)
  /\ (IndexOf h n w = (-1, false) <->
      forall c : HeaderColumn,
        c ∈ h -> Name c = n -> Wide c = true /\ w = false)
  /\ (snd (IndexOf h n w) = false -> fst (IndexOf h n w) = -1).
Proof.
  split; [|split].
  - intros idx. split.
    + intros H. apply IndexOf_from_found in H
        as (j & c & -> & Hj & Hn & Hw & Hfirst).
      exists j, c. rewrite Z.add_0_l. auto.
    + intros (j & c & -> & Hj & Hn & Hw & Hfirst).
      destruct (IndexOf h n w) as [i [|]] eqn:E.
      * apply IndexOf_from_found in E
          as (j0 & c0 & -> & Hj0 & Hn0 & Hw0 & Hfirst0).
        rewrite Z.add_0_l.
        destruct (Nat.lt_trichotomy j0 j) as [Hlt|[->|Hlt]].
        -- destruct (Hfirst j0 c0 Hlt Hj0) as [[H1 H2]|H1];
             [destruct Hw0; congruence|contradiction].
        -- reflexivity.
        -- destruct (Hfirst0 j c Hlt Hj) as [[H1 H2]|H1];
             [destruct Hw; congruence|contradiction].
      * apply IndexOf_from_missing in E as [_ Hall].
        assert (c ∈ h) as Hc by (apply list_elem_of_lookup; eauto).
        destruct (Hall c Hc Hn) as [H1 H2]. destruct Hw; congruence.
  - split.
    + intros H. apply IndexOf_from_missing in H as [_ Hall]. exact Hall.
    + intros Hall. destruct (IndexOf h n w) as [i [|]] eqn:E.
      * apply IndexOf_from_found in E as (j & c & _ & Hj & Hn & Hw & _).
        assert (c ∈ h) as Hc by (apply list_elem_of_lookup; eauto).
        destruct (Hall c Hc Hn) as [H1 H2]. destruct Hw; congruence.
      * apply IndexOf_missing in E. rewrite E. reflexivity.
  - destruct (IndexOf h n w) as [i ok] eqn:E. simpl. intros ->.
    apply IndexOf_missing in E. exact E.
Qed.

(** X2. A name that [IndexOf] finds when wide columns are left out is
    found when they are included, at an index that is not greater. *)
Theorem IndexOf_wide_not_later (h : Header) (n : string) (i : Z) :
  IndexOf h n false = (i, true) ->
  exists j : Z, IndexOf h n true = (j, true) /\ 0 <= j <= i.
Proof.
  intros H.
  apply IndexOf_from_found in H as (j0 & c0 & -> & Hj0 & Hn0 & Hw0 & _).
  assert (c0 ∈ h) as Hc0 by (apply list_elem_of_lookup; eauto).
  destruct (IndexOf h n true) as [j [|]] eqn:E.
  - apply IndexOf_from_found in E as (j1 & c1 & -> & Hj1 & Hn1 & _ & Hfirst).
    exists (0 + Z.of_nat j1). split; [reflexivity|].
    destruct (le_lt_dec j1 j0) as [Hle|Hlt]; [lia|].
    destruct (Hfirst j0 c0 Hlt Hj0) as [[_ ?]|?];
      [discriminate|contradiction].
  - apply IndexOf_from_missing in E as [_ Hall].
    destruct (Hall c0 Hc0 Hn0) as [_ ?]. discriminate.
Qed.

(** A wide column AGE before a column AGE that is not wide. *)
Lemma IndexOf_wide_not_later_witness :
  IndexOf [setWide true (plainColumn "AGE"); plainColumn "AGE"] "AGE" false
  = (1, true)
  /\ exists j : Z,
       IndexOf [setWide true (plainColumn "AGE"); plainColumn "AGE"]
               "AGE" true = (j, true)
       /\ 0 <= j <= 1.
Proof.
  split; [reflexivity|].
  apply (IndexOf_wide_not_later
           [setWide true (plainColumn "AGE"); plainColumn "AGE"] "AGE" 1).
  reflexivity.
Defined.

(** ** ColumnNames *)

Lemma visible_iff (w : bool) (c : HeaderColumn) :
  visible w c = true <-> Wide c = false \/ w = true.
Proof.
  unfold visible. destruct w, (Wide c); simpl; split; auto;
    intros [?|?]; discriminate.
Qed.

Lemma ColumnNames_loop_eq (h : Header) (w : bool) :
  forall cc : list string,
    ColumnNames_loop h w cc = cc ++ map Name (List.filter (visible w) h).
Proof.
  induction h as [|c h IH]; intros cc; simpl.
  - rewrite app_nil_r. reflexivity.
  - unfold visible at 1. destruct (negb w && Wide c); simpl.
    + apply IH.
    + rewrite IH, <- app_assoc. reflexivity.
Qed.

Lemma ColumnNames_names (h : Header) (w : bool) :
  namesOf (ColumnNames h w) = map Name (List.filter (visible w) h).
Proof.
  unfold ColumnNames, namesOf.
  destruct (len h =? 0) eqn:E.
  - apply len_zero_iff in E. subst h. reflexivity.
  - simpl. apply ColumnNames_loop_eq.
Qed.

Lemma ColumnNames_Some (h : Header) (w : bool) :
  h <> [] -> ColumnNames h w = Some (map Name (List.filter (visible w) h)).
Proof.
  intros Hne. unfold ColumnNames.
  destruct (len h =? 0) eqn:E.
  - apply len_zero_iff in E. contradiction.
  - rewrite ColumnNames_loop_eq. reflexivity.
Qed.

Lemma filter_all {A : Type} (p : A -> bool) (l : list A) :
  Forall (fun x => p x = true) l -> List.filter p l = l.
Proof.
  induction 1 as [|x l Hx _ IH]; simpl; [reflexivity|].
  rewrite Hx, IH. reflexivity.
Qed.

Lemma filter_none {A : Type} (p : A -> bool) (l : list A) :
  Forall (fun x => p x = false) l -> List.filter p l = [].
Proof.
  induction 1 as [|x l Hx _ IH]; simpl; [reflexivity|].
  rewrite Hx, IH. reflexivity.
Qed.

(** X3. [ColumnNames] returns [nil] exactly for a header without column.
    The names it lists are those [IndexOf] finds with the same choice about
    wide columns, and with the wide columns included it lists the name of
    every column, in the order of the header. *)
Theorem ColumnNames_lists_what_IndexOf_finds (h : Header) (w : bool) :
  (ColumnNames h w = None <-> h = [])
  /\ (forall n : string,
        n ∈ namesOf (ColumnNames h w) <-> snd (IndexOf h n w) = true)
  /\ namesOf (ColumnNames h true) = map Name h
  /\ (length (namesOf (ColumnNames h w)) <= length h)%nat.
Proof.
  split; [|split; [|split]].
  - unfold ColumnNames. destruct (len h =? 0) eqn:E.
    + apply len_zero_iff in E. tauto.
    + split; [discriminate|]. intros ->. discriminate.
  - intros n. rewrite ColumnNames_names, IndexOf_found_iff.
    rewrite list_elem_of_In, in_map_iff. split.
    + intros (c & Hn & Hin). apply filter_In in Hin as [Hin Hv].
      exists c. split; [apply list_elem_of_In, Hin|].
      split; [exact Hn|]. apply visible_iff, Hv.
    + intros (c & Hin & Hn & Hw). exists c. split; [exact Hn|].
      apply filter_In. split; [apply list_elem_of_In, Hin|].
      apply visible_iff, Hw.
  - rewrite ColumnNames_names, filter_all; [reflexivity|].
    apply Forall_forall. intros c _. apply visible_iff. auto.
  - rewrite ColumnNames_names, length_map. apply List.filter_length_le.
Qed.

(** ** Customize and the names it shows *)

Lemma IsMetricsCol_eq (h : Header) (z : Z) :
  IsMetricsCol h z =
    Some (match index h z with Some c => MX c | None => false end)
  /\ IsTimeCol h z =
       Some (match index h z with Some c => Time c | None => false end)
  /\ IsCapacityCol h z =
       Some (match index h z with Some c => Capacity c | None => false end).
Proof.
  unfold IsMetricsCol, IsTimeCol, IsCapacityCol.
  destruct ((z <? 0) || (z >=? len h)) eqn:G.
  - apply role_guard in G. rewrite (index_out_of_range h z G). auto.
  - assert (0 <= z < len h) as Hin.
    { destruct (Z.ltb_spec z 0), (Z.geb_spec z (len h)); simpl in G;
        try discriminate; lia. }
    destruct (index_in_range h z Hin) as (c & Hc & _).
    rewrite Hc. simpl. auto.
Qed.

(** The columns of the requests, one by one. *)
Lemma Customize_narrow_shape (h : Header) (cols : list string) :
  cols <> [] ->
  exists pre : Header,
    Customize h cols false = Some pre
    /\ Customize h cols true =
         Some (pre ++ map (setWide true) (unmatched h cols))
    /\ length pre = length cols
    /\ forall (i : nat) (c : string),
         cols !! i = Some c ->
         exists col : HeaderColumn,
           pre !! i = Some col
           /\ Wide col = false
           /\ Name col = shownName h c
           /\ match IndexOf h c true with
              | (idx, true) =>
                  exists hc : HeaderColumn,
                    index h idx = Some hc /\ col = setWide false hc
              | (_, false) => col = namedColumn (capturedName c)
              end.
Proof.
  intros Hne.
  destruct (Customize_nonempty h cols Hne) as (pre & Hf & Ht & Hl & Hpre).
  exists pre. split; [exact Hf|]. split; [exact Ht|]. split; [exact Hl|].
  intros i c Hc. specialize (Hpre i c Hc).
  destruct (bag_custom_name h cols false i c Hc) as [Hn _].
  unfold shownName.
  destruct (IndexOf h c true) as [idx [|]] eqn:E; simpl.
  - destruct Hpre as (hc & Hidx & Hp).
    exists (setWide false hc). split; [exact Hp|]. split; [reflexivity|].
    split; [|eauto].
    destruct (IndexOf_found _ _ _ _ E) as (hc' & Hidx' & Hname & _).
    rewrite Hidx in Hidx'. inversion Hidx'; subst hc'. exact Hname.
  - rewrite Hn in Hpre. exists (namedColumn (capturedName c)). auto.
Qed.

Lemma narrow_names (h : Header) (cols : list string) (pre : Header) :
  length pre = length cols ->
  (forall (i : nat) (c : string),
     cols !! i = Some c ->
     exists col : HeaderColumn,
       pre !! i = Some col /\ Wide col = false
       /\ Name col = shownName h c) ->
  Forall (fun c => Wide c = false) pre
  /\ map Name pre = map (shownName h) cols.
Proof.
  intros Hl Hpre. split.
  - apply Forall_forall. intros col Hin.
    apply list_elem_of_lookup in Hin as [i Hi].
    destruct (cols !! i) as [c|] eqn:Hc.
    + destruct (Hpre i c Hc) as (col' & Hi' & Hw & _). congruence.
    + apply lookup_ge_None in Hc. apply lookup_lt_Some in Hi. lia.
  - apply list_eq. intros i. rewrite !list_lookup_fmap.
    destruct (cols !! i) as [c|] eqn:Hc.
    + destruct (Hpre i c Hc) as (col & Hi & _ & Hn).
      rewrite Hi. simpl. rewrite Hn. reflexivity.
    + apply lookup_ge_None in Hc.
      rewrite (proj2 (lookup_ge_None pre i)) by lia. reflexivity.
Qed.

(** X4. With requests and [wide] unset, no column [Customize] returns is
    wide, so that [ColumnNames] lists all of them whatever its argument:
    the request itself where it names a column of the header, and the
    custom name kept for the request elsewhere. *)
Theorem Customize_narrow_names (h : Header) (cols : list string) :
  cols <> [] ->
  exists res : Header,
    Customize h cols false = Some res
    /\ Forall (fun c => Wide c = false) res
    /\ forall w : bool,
         ColumnNames res w = Some (map (shownName h) cols).
Proof.
  intros Hne.
  destruct (Customize_narrow_shape h cols Hne) as (pre & Hf & _ & Hl & Hpre).
  destruct (narrow_names h cols pre Hl) as [Hw Hn].
  { intros i c Hc. destruct (Hpre i c Hc) as (col & ? & ? & ? & _). eauto. }
  exists pre. split; [exact Hf|]. split; [exact Hw|].
  intros w. rewrite ColumnNames_Some.
  - rewrite filter_all, Hn; [reflexivity|].
    apply Forall_forall. intros c Hc. apply visible_iff. left.
    revert c Hc. apply Forall_forall. exact Hw.
  - intros ->. destruct cols; [contradiction|discriminate].
Qed.

(** The requests NAME and grp: LABELS[app] on the sample header. *)
Lemma Customize_narrow_names_witness :
  sampleRequests <> []
  /\ exists res : Header,
       Customize sampleHeader sampleRequests false = Some res
       /\ Forall (fun c => Wide c = false) res
       /\ forall w : bool,
            ColumnNames res w
            = Some (map (shownName sampleHeader) sampleRequests).
Proof.
  split; [discriminate|].
  apply (Customize_narrow_names sampleHeader sampleRequests). discriminate.
Defined.

Lemma filter_app_bool {A : Type} (p : A -> bool) (l1 l2 : list A) :
  List.filter p (l1 ++ l2) = List.filter p l1 ++ List.filter p l2.
Proof.
  induction l1 as [|x l1 IH]; simpl; [reflexivity|].
  destruct (p x); simpl; rewrite IH; reflexivity.
Qed.

(** X5. The columns [Customize] adds when [wide] is set are all wide:
    without the wide columns, [ColumnNames] lists for the result with
    [wide] set what it lists for the result with [wide] unset, and with
    them it lists the names of the unmatched columns after those. *)
Theorem Customize_wide_names (h : Header) (cols : list string) :
  cols <> [] ->
  exists narrow full : Header,
    Customize h cols false = Some narrow
    /\ Customize h cols true = Some full
    /\ ColumnNames full false = ColumnNames narrow false
    /\ ColumnNames full true =
         Some (map (shownName h) cols ++ map Name (unmatched h cols)).
Proof.
  intros Hne.
  destruct (Customize_narrow_shape h cols Hne) as (pre & Hf & Ht & Hl & Hpre).
  destruct (narrow_names h cols pre Hl) as [Hw Hn].
  { intros i c Hc. destruct (Hpre i c Hc) as (col & ? & ? & ? & _). eauto. }
  assert (Hpre_ne : pre <> []).
  { intros ->. destruct cols; [contradiction|discriminate]. }
  assert (Hfull_ne : pre ++ map (setWide true) (unmatched h cols) <> []).
  { destruct pre; [contradiction|discriminate]. }
  exists pre, (pre ++ map (setWide true) (unmatched h cols)).
  split; [exact Hf|]. split; [exact Ht|]. split.
  - rewrite !ColumnNames_Some by assumption. f_equal. f_equal.
    rewrite filter_app_bool.
    rewrite (filter_none (visible false) (map (setWide true) _)).
    + apply app_nil_r.
    + apply Forall_forall. intros c Hc.
      apply list_elem_of_In, in_map_iff in Hc as (c0 & <- & _). reflexivity.
  - rewrite ColumnNames_Some by assumption. f_equal.
    rewrite filter_all.
    + rewrite map_app, Hn, map_map. reflexivity.
    + apply Forall_forall. intros c _. apply visible_iff. auto.
Qed.

(** The sample requests with [wide] set. *)
Lemma Customize_wide_names_witness :
  sampleRequests <> []
  /\ exists narrow full : Header,
       Customize sampleHeader sampleRequests false = Some narrow
       /\ Customize sampleHeader sampleRequests true = Some full
       /\ ColumnNames full false = ColumnNames narrow false
       /\ ColumnNames full true =
            Some (map (shownName sampleHeader) sampleRequests
                  ++ map Name (unmatched sampleHeader sampleRequests)).
Proof.
  split; [discriminate|].
  apply (Customize_wide_names sampleHeader sampleRequests). discriminate.
Defined.

(** ** Customize and the index list of MapIndices *)

Lemma source_cases (h : Header) (cols : list string) (pre : Header)
    (z : Z) :
  length pre = length cols ->
  (index pre z = None /\ index cols z = None
   /\ sourceIndex (fst (MapIndices h cols false)) z = -1)
  \/ (exists (i : nat) (c : string),
        z = Z.of_nat i /\ cols !! i = Some c
        /\ sourceIndex (fst (MapIndices h cols false)) z
           = fst (IndexOf h c true)).
Proof.
  intros Hl. unfold sourceIndex. rewrite MapIndices_fst.
  destruct (decide (0 <= z < len cols)) as [Hin|Hout].
  - right. destruct (index_in_range cols z Hin) as (c & _ & Hc).
    exists (Z.to_nat z), c. split; [lia|]. split; [exact Hc|].
    replace z with (Z.of_nat (Z.to_nat z)) at 1 by lia.
    rewrite index_of_nat, list_lookup_fmap, Hc. reflexivity.
  - left. rewrite !index_out_of_range; auto.
    + unfold len in *. rewrite length_map. lia.
    + unfold len in *. lia.
    + unfold len in *. rewrite Hl. lia.
Qed.

(** X6. The index list of [MapIndices] tells where each column of the
    header [Customize] returns comes from. Where the list has an index of
    the header, the column is the column of the header at that index, with
    [Wide] unset; where it has -1, the column is a new one that carries the
    custom name kept for the request and nothing else. *)
Theorem Customize_follows_MapIndices (h : Header) (cols : list string) :
  cols <> [] ->
  exists res : Header,
    Customize h cols false = Some res
    /\ forall (i : nat) (idx : Z),
         fst (MapIndices h cols false) !! i = Some idx ->
         (0 <= idx < len h
          /\ exists hc : HeaderColumn,
               index h idx = Some hc
               /\ h !! Z.to_nat idx = Some hc
               /\ res !! i =
                    Some (mkHeaderColumn (Name hc) (Align hc) (Decorator hc)
                            false (MX hc) (Time hc) (Capacity hc) (VS hc)))
         \/ (idx = -1
             /\ exists c : string,
                  cols !! i = Some c
                  /\ res !! i =
                       Some (mkHeaderColumn (capturedName c) 0 None
                               false false false false false)
                  /\ capturedName c =
                       match snd (MapIndices h cols false) !! Z.of_nat i with
                       | Some e => CustomName e
                       | None => ""
                       end).
Proof.
  intros Hne.
  destruct (Customize_narrow_shape h cols Hne) as (pre & Hf & _ & Hl & Hpre).
  exists pre. split; [exact Hf|]. intros i idx Hi.
  rewrite MapIndices_fst, list_lookup_fmap in Hi.
  destruct (cols !! i) as [c|] eqn:Hc; [|discriminate].
  simpl in Hi. inversion Hi; subst idx. clear Hi.
  destruct (Hpre i c Hc) as (col & Hp & _ & _ & Hshape).
  destruct (bag_custom_name h cols false i c Hc) as [_ Hn].
  destruct (IndexOf h c true) as [idx [|]] eqn:E; simpl.
  - left. destruct Hshape as (hc & Hidx & ->).
    destruct (proj1 (index_Some h idx hc) Hidx) as [Hr Hlk].
    split; [exact Hr|]. exists hc.
    split; [exact Hidx|]. split; [exact Hlk|exact Hp].
  - right. apply IndexOf_missing in E. subst col.
    split; [exact E|]. exists c.
    split; [reflexivity|]. split; [exact Hp|exact Hn].
Qed.

(** The sample requests: NAME comes from the header, the other does not. *)
Lemma Customize_follows_MapIndices_witness :
  sampleRequests <> []
  /\ exists res : Header,
       Customize sampleHeader sampleRequests false = Some res
       /\ forall (i : nat) (idx : Z),
            fst (MapIndices sampleHeader sampleRequests false) !! i
            = Some idx ->
            (0 <= idx < len sampleHeader
             /\ exists hc : HeaderColumn,
                  index sampleHeader idx = Some hc
                  /\ sampleHeader !! Z.to_nat idx = Some hc
                  /\ res !! i =
                       Some (mkHeaderColumn (Name hc) (Align hc)
                               (Decorator hc) false (MX hc) (Time hc)
                               (Capacity hc) (VS hc)))
            \/ (idx = -1
                /\ exists c : string,
                     sampleRequests !! i = Some c
                     /\ res !! i =
                          Some (mkHeaderColumn (capturedName c) 0 None
                                  false false false false false)
                     /\ capturedName c =
                          match snd (MapIndices sampleHeader sampleRequests
                                       false) !! Z.of_nat i with
                          | Some e => CustomName e
                          | None => ""
                          end).
Proof.
  split; [discriminate|].
  apply (Customize_follows_MapIndices sampleHeader sampleRequests).
  discriminate.
Defined.

(** X7. The role queries on the header [Customize] returns agree, at every
    index, with the role queries on the original header at the index that
    [MapIndices] gives for that position: a column taken from the header
    keeps its roles, and a new column, for which the index is -1, has
    none. *)
Theorem Customize_keeps_roles (h : Header) (cols : list string) :
  cols <> [] ->
  exists res : Header,
    Customize h cols false = Some res
    /\ forall z : Z,
         IsMetricsCol res z
         = IsMetricsCol h (sourceIndex (fst (MapIndices h cols false)) z)
         /\ IsTimeCol res z
            = IsTimeCol h (sourceIndex (fst (MapIndices h cols false)) z)
         /\ IsCapacityCol res z
            = IsCapacityCol h
                (sourceIndex (fst (MapIndices h cols false)) z).
Proof.
  intros Hne.
  destruct (Customize_narrow_shape h cols Hne) as (pre & Hf & _ & Hl & Hpre).
  exists pre. split; [exact Hf|]. intros z.
  destruct (IsMetricsCol_eq pre z) as (-> & -> & ->).
  destruct (IsMetricsCol_eq h
              (sourceIndex (fst (MapIndices h cols false)) z))
    as (-> & -> & ->).
  destruct (source_cases h cols pre z Hl)
    as [(Hp & _ & ->)|(i & c & -> & Hc & ->)].
  - rewrite Hp. rewrite (index_out_of_range h (-1)) by lia. auto.
  - rewrite index_of_nat.
    destruct (Hpre i c Hc) as (col & Hp & _ & _ & Hshape). rewrite Hp.
    destruct (IndexOf h c true) as [idx [|]] eqn:E; simpl.
    + destruct Hshape as (hc & Hidx & ->). rewrite Hidx. auto.
    + apply IndexOf_missing in E. subst idx col.
      rewrite (index_out_of_range h (-1)) by lia. auto.
Qed.

(** The sample requests. *)
Lemma Customize_keeps_roles_witness :
  sampleRequests <> []
  /\ exists res : Header,
       Customize sampleHeader sampleRequests false = Some res
       /\ forall z : Z,
            IsMetricsCol res z
            = IsMetricsCol sampleHeader
                (sourceIndex
                   (fst (MapIndices sampleHeader sampleRequests false)) z)
            /\ IsTimeCol res z
               = IsTimeCol sampleHeader
                   (sourceIndex
                      (fst (MapIndices sampleHeader sampleRequests false)) z)
            /\ IsCapacityCol res z
               = IsCapacityCol sampleHeader
                   (sourceIndex
                      (fst (MapIndices sampleHeader sampleRequests false))
                      z).
Proof.
  split; [discriminate|].
  apply (Customize_keeps_roles sampleHeader sampleRequests). discriminate.
Defined.

(** ** The size of the customized header *)

Lemma filter_or_length {A : Type} (p q : A -> bool) (l : list A) :
  (length (List.filter (fun x => p x || q x) l)
   <= length (List.filter p l) + length (List.filter q l))%nat.
Proof.
  induction l as [|x l IH]; simpl; [lia|].
  destruct (p x), (q x); simpl; lia.
Qed.

Lemma filter_one_index (v : option Z) (l : list nat) :
  NoDup l ->
  (length (List.filter (fun j => bool_decide (v = Some (Z.of_nat j))) l)
   <= 1)%nat.
Proof.
  induction 1 as [|x l Hx Hnd IH]; simpl; [lia|].
  destruct (bool_decide (v = Some (Z.of_nat x))) eqn:E; [|exact IH].
  apply bool_decide_eq_true_1 in E. simpl.
  rewrite filter_none; [simpl; lia|].
  apply Forall_forall. intros y Hy.
  apply bool_decide_eq_false_2. intros Hv. rewrite E in Hv.
  inversion Hv as [Hxy]. apply Nat2Z.inj in Hxy. subst y. contradiction.
Qed.

Lemma consumed_count (h : Header) (cols : list string) (l : list nat) :
  NoDup l ->
  (length (List.filter (fun j => consumed h cols (Z.of_nat j)) l)
   <= length cols)%nat.
Proof.
  intros Hnd. induction cols as [|c cols IH].
  - rewrite filter_none; [simpl; lia|].
    apply Forall_forall. intros j _. reflexivity.
  - pose proof
      (filter_or_length
         (fun j => bool_decide (resolve h c = Some (Z.of_nat j)))
         (fun j => consumed h cols (Z.of_nat j)) l) as Hor.
    pose proof (filter_one_index (resolve h c) l Hnd) as Hone.
    change (fun j => consumed h (c :: cols) (Z.of_nat j))
      with (fun j => bool_decide (resolve h c = Some (Z.of_nat j))
                     || consumed h cols (Z.of_nat j)).
    simpl length. lia.
Qed.

(** X8. With requests and [wide] set, [Customize] returns at least as many
    columns as the header has and as there are requests, and no more than
    both together. *)
Theorem Customize_wide_size (h : Header) (cols : list string) :
  cols <> [] ->
  exists res : Header,
    Customize h cols true = Some res
    /\ (length h <= length res)%nat
    /\ (length cols <= length res)%nat
    /\ (length res <= length cols + length h)%nat.
Proof.
  intros Hne.
  destruct (Customize_nonempty h cols Hne) as (pre & _ & Ht & Hl & _).
  exists (pre ++ map (setWide true) (unmatched h cols)).
  split; [exact Ht|].
  rewrite length_app, length_map, Hl.
  unfold unmatched. rewrite keptFrom_length.
  pose proof (List.filter_length
                (fun j => consumed h cols (Z.of_nat j))
                (seq 0 (length h))) as Hsum.
  rewrite length_seq in Hsum.
  pose proof (consumed_count h cols (seq 0 (length h))
                             (NoDup_seq 0 (length h))) as Hc.
  lia.
Qed.

(** The sample requests. *)
Lemma Customize_wide_size_witness :
  sampleRequests <> []
  /\ exists res : Header,
       Customize sampleHeader sampleRequests true = Some res
       /\ (length sampleHeader <= length res)%nat
       /\ (length sampleRequests <= length res)%nat
       /\ (length res <= length sampleRequests + length sampleHeader)%nat.
Proof.
  split; [discriminate|].
  apply (Customize_wide_size sampleHeader sampleRequests). discriminate.
Defined.

(** ** Labelize *)

Lemma Labelize_labels_eq (cc : list string) :
  forall header : Header,
    Labelize_labels cc header = header ++ map namedColumn cc.
Proof.
  induction cc as [|c cc IH]; intros header; simpl.
  - rewrite app_nil_r. reflexivity.
  - rewrite IH, <- app_assoc. reflexivity.
Qed.

Lemma Labelize_cols_Some (h : Header) (cols : list Z) :
  forall header res : Header,
    Labelize_cols h cols header = Some res <->
    exists sel : Header,
      Forall2 (fun c hc => index h c = Some hc) cols sel
      /\ res = header ++ sel.
Proof.
  induction cols as [|c cols IH]; intros header res; simpl.
  - split.
    + intros [= <-]. exists []. rewrite app_nil_r. split; constructor.
    + intros (sel & Hsel & ->). inversion Hsel. rewrite app_nil_r.
      reflexivity.
  - destruct (index h c) as [hc|] eqn:Hc; simpl.
    + rewrite IH. split.
      * intros (sel & Hsel & ->). exists (hc :: sel).
        rewrite <- app_assoc. split; [constructor; assumption|reflexivity].
      * intros (sel & Hsel & ->). inversion Hsel as [|? hc' ? sel' H1 H2];
          subst. rewrite Hc in H1. inversion H1; subst hc'.
        exists sel'. rewrite <- app_assoc. auto.
    + split; [discriminate|].
      intros (sel & Hsel & _). inversion Hsel; subst. congruence.
Qed.

Lemma Labelize_cols_None (h : Header) (cols : list Z) :
  forall header : Header,
    Labelize_cols h cols header = None <->
    exists c : Z, c ∈ cols /\ (c < 0 \/ len h <= c).
Proof.
  induction cols as [|c cols IH]; intros header; simpl.
  - split; [discriminate|]. intros (c & Hc & _). inversion Hc.
  - destruct (index h c) as [hc|] eqn:Hc; simpl.
    + rewrite IH. apply index_Some in Hc as [Hr _]. split.
      * intros (c' & Hin & Hout). exists c'. split; [|exact Hout].
        apply elem_of_cons. auto.
      * intros (c' & Hin & Hout). exists c'. split; [|exact Hout].
        apply elem_of_cons in Hin as [->|Hin]; [lia|exact Hin].
    + split; [|reflexivity]. intros _. exists c.
      split; [apply elem_of_cons; auto|].
      destruct (decide (0 <= c < len h)) as [Hin|Hout]; [|lia].
      destruct (index_in_range h c Hin) as (x & Hx & _). congruence.
Qed.

Lemma Labelize_Some_iff (h : Header) (cols : list Z) (labelCol : Z)
    (ExtractHeaderLabels : Z -> list string) (res : Header) :
  Labelize h cols labelCol ExtractHeaderLabels = Some res <->
  exists sel : Header,
    Forall2 (fun c hc => index h c = Some hc) cols sel
    /\ res = sel ++ map namedColumn (ExtractHeaderLabels labelCol).
Proof.
  unfold Labelize.
  destruct (Labelize_cols h cols []) as [header|] eqn:E; simpl.
  - apply Labelize_cols_Some in E as (sel & Hsel & ->). simpl.
    rewrite Labelize_labels_eq. split.
    + intros [= <-]. eauto.
    + intros (sel' & Hsel' & ->). do 2 f_equal.
      clear -Hsel Hsel'. revert sel' Hsel'.
      induction Hsel as [|c hc cols sel H1 _ IH]; intros sel' Hsel';
        inversion Hsel' as [|? hc' ? sel'' H1' H2']; subst;
        [reflexivity|].
      rewrite H1 in H1'. inversion H1'; subst. f_equal. apply IH, H2'.
  - split; [discriminate|]. intros (sel & Hsel & _).
    assert (Labelize_cols h cols [] = Some ([] ++ sel)) as E'
      by (apply Labelize_cols_Some; eauto).
    congruence.
Qed.


(** X10. The columns [Labelize] makes for the labels are not wide:
    [ColumnNames] lists every label, after the names of the columns taken
    from the header, also when it leaves the wide columns out. *)
Theorem Labelize_names (h : Header) (cols : list Z) (labelCol : Z)
    (ExtractHeaderLabels : Z -> list string) (res : Header) :
  Labelize h cols labelCol ExtractHeaderLabels = Some res ->
  exists sel : Header,
    Forall2 (fun c hc => index h c = Some hc) cols sel
    /\ forall w : bool,
         namesOf (ColumnNames res w)
         = namesOf (ColumnNames sel w) ++ ExtractHeaderLabels labelCol.
Proof.
  intros H.
  apply Labelize_Some_iff in H as (sel & Hsel & ->).
  exists sel. split; [exact Hsel|]. intros w.
  rewrite !ColumnNames_names, filter_app_bool, map_app. f_equal.
  rewrite filter_all.
  - rewrite map_map. simpl. apply map_id.
  - apply Forall_forall. intros c Hc.
    apply list_elem_of_In, in_map_iff in Hc as (l & <- & _).
    apply visible_iff. auto.
Qed.

(** The columns LABELS and NAME of the sample header, and two labels. *)
Lemma Labelize_names_witness :
  Labelize sampleHeader [2; 0] 2 (fun _ => ["app"; "tier"])
  = Some [plainColumn "LABELS"; plainColumn "NAME";
          namedColumn "app"; namedColumn "tier"]
  /\ exists sel : Header,
       Forall2 (fun c hc => index sampleHeader c = Some hc) [2; 0] sel
       /\ forall w : bool,
            namesOf (ColumnNames
                       [plainColumn "LABELS"; plainColumn "NAME";
                        namedColumn "app"; namedColumn "tier"] w)
            = namesOf (ColumnNames sel w) ++ ["app"; "tier"].
Proof.
  split; [reflexivity|].
  apply (Labelize_names sampleHeader [2; 0] 2 (fun _ => ["app"; "tier"])).
  reflexivity.
Defined.

(** ** Clone, Clear and Diff *)

Lemma Diff_false_iff (h1 h2 : HeaderValue) :
  Diff h1 h2 = false <->
  isNil h1 = isNil h2
  /\ length (hv_cols h1) = length (hv_cols h2)
  /\ (hv_data h1 = hv_data h2
      \/ (hv_cols h1 = hv_cols h2
          /\ Forall (fun c => Decorator c = None) (hv_cols h1))).
Proof.
  unfold Diff.
  destruct (len (hv_cols h1) =? len (hv_cols h2)) eqn:El; simpl.
  - rewrite negb_false_iff. apply DeepEqual_iff.
  - apply Z.eqb_neq in El. unfold len in El.
    split; [discriminate|]. intros (_ & Hl & _). lia.
Qed.

Lemma Clone_loop_eq (h : Header) :
  forall he : Header, Clone_loop h he = he ++ h.
Proof.
  induction h as [|c h IH]; intros he; simpl.
  - rewrite app_nil_r. reflexivity.
  - rewrite IH, <- app_assoc. reflexivity.
Qed.

(** X11. [Clone] returns a header that is not [nil] and has the columns of
    the original, in their order. The array of a clone with columns being
    new, [Diff] tells the clone from the original unless the original is
    not [nil] and none of its columns has a decorator. *)
Theorem Clone_then_Diff (a : N) (h : HeaderValue) :
  (hv_cols h <> [] -> hv_data h <> Some a) ->
  hv_cols (Header_Clone a h) = hv_cols h
  /\ isNil (Header_Clone a h) = false
  /\ (Diff h (Header_Clone a h) = false <->
      isNil h = false
      /\ Forall (fun c => Decorator c = None) (hv_cols h)).
Proof.
  intros Hfresh.
  assert (Hcols : hv_cols (Header_Clone a h) = hv_cols h).
  { unfold Header_Clone. simpl. apply Clone_loop_eq. }
  split; [exact Hcols|]. split; [reflexivity|].
  rewrite Diff_false_iff, Hcols.
  change (isNil (Header_Clone a h)) with false.
  change (hv_data (Header_Clone a h)) with (Some a).
  split.
  - intros (Hn & _ & [Hd|[_ Hall]]); split; auto.
    destruct (hv_cols h) as [|c l] eqn:E; [constructor|].
    exfalso. apply Hfresh; [discriminate|exact Hd].
  - intros [Hn Hall]. auto.
Qed.

(** A header with a decorated column, and its clone at another address. *)
Lemma Clone_then_Diff_witness :
  (hv_cols (decoratedAt 1) <> [] -> hv_data (decoratedAt 1) <> Some 2%N)
  /\ hv_cols (Header_Clone 2 (decoratedAt 1)) = hv_cols (decoratedAt 1)
  /\ isNil (Header_Clone 2 (decoratedAt 1)) = false
  /\ (Diff (decoratedAt 1) (Header_Clone 2 (decoratedAt 1)) = false <->
      isNil (decoratedAt 1) = false
      /\ Forall (fun c => Decorator c = None) (hv_cols (decoratedAt 1))).
Proof.
  split; [intros _; discriminate|].
  apply (Clone_then_Diff 2 (decoratedAt 1)). intros _. discriminate.
Defined.

(** X12. [Diff] does not depend on the order of the two headers, and a
    header does not differ from itself, whatever its columns carry. *)
Theorem Diff_symmetric (h1 h2 : HeaderValue) :
  Diff h1 h2 = Diff h2 h1 /\ Diff h1 h1 = false.
Proof.
  split.
  - apply eq_true_iff_eq. rewrite <- !not_false_iff_true.
    rewrite !Diff_false_iff. split; intros Hd H; apply Hd;
      destruct H as (Hn & Hl & [Hp|[Hc Hall]]);
      (split; [auto|split; [auto|]]); auto;
      right; split; auto; rewrite Hc in *; exact Hall.
  - apply Diff_false_iff. auto.
Qed.

(** X13. [Clear] returns a header without column, which is [nil] exactly
    when the original is and starts where it starts. [Diff] tells it from
    the original exactly when the original has a column, and tells two
    cleared headers apart exactly when one is [nil] and the other is
    not. *)
Theorem Clear_then_Diff (h h' : HeaderValue) :
  hv_cols (Header_Clear h) = []
  /\ isNil (Header_Clear h) = isNil h
  /\ ColumnNames (hv_cols (Header_Clear h)) true = None
  /\ (Diff (Header_Clear h) h = false <-> hv_cols h = [])
  /\ (Diff (Header_Clear h) (Header_Clear h') = false <->
      isNil h = isNil h').
Proof.
  split; [reflexivity|]. split; [reflexivity|]. split; [reflexivity|].
  rewrite !Diff_false_iff. simpl. split; split.
  - intros (_ & Hl & _). destruct (hv_cols h); [reflexivity|discriminate].
  - intros ->. auto.
  - intros (Hn & _). exact Hn.
  - intros Hn. split; [exact Hn|]. split; [reflexivity|].
    right. split; [reflexivity|constructor].
Qed.

(** ** Requests for labels *)

Lemma allChars_append (p : ascii -> bool) (s t : string) :
  allChars p (s ++ t) = allChars p s && allChars p t.
Proof.
  induction s as [|a s IH]; [reflexivity|].
  rewrite append_cons. simpl. rewrite IH, andb_assoc. reflexivity.
Qed.

Lemma body_without_bracket (t : string) :
  allChars notLBracket t = true -> body t = None.
Proof.
  induction t as [|a t IH]; intros H; [reflexivity|].
  simpl in H. apply andb_true_iff in H as [Ha Ht].
  cbn [body]. rewrite (IH Ht).
  unfold notLBracket in Ha. apply negb_true_iff in Ha. rewrite Ha.
  destruct (anyChar a); reflexivity.
Qed.

(** A key without opening bracket leaves one reading of the brackets. *)
Lemma body_exact (g2 key : string) :
  allChars anyChar g2 = true ->
  allChars anyChar key = true ->
  allChars notLBracket key = true ->
  body (g2 ++ String lbracket (key ++ String rbracket "")) = Some (g2, key).
Proof.
  intros H2 Hk Hb. induction g2 as [|a g2 IH].
  - rewrite append_nil_l. cbn [body].
    replace (anyChar lbracket) with true by reflexivity.
    rewrite body_without_bracket.
    + replace (Ascii.eqb lbracket lbracket) with true by reflexivity.
      rewrite (closes_complete key Hk). reflexivity.
    + rewrite allChars_append, Hb. reflexivity.
  - simpl in H2. apply andb_true_iff in H2 as [Ha H2].
    rewrite append_cons. cbn [body]. rewrite Ha, (IH H2). reflexivity.
Qed.

Lemma splitColon_after (p : ascii -> bool) (s : string) :
  forall g after : string,
    allChars p s = true ->
    splitColon s = Some (g, after) -> allChars p after = true.
Proof.
  induction s as [|a s IH]; intros g after Hp H; [discriminate|].
  simpl in Hp. apply andb_true_iff in Hp as [_ Hp].
  cbn [splitColon] in H. destruct (notColon a).
  - destruct (splitColon s) as [[g' after']|] eqn:E; [|discriminate].
    inversion H; subst. apply (IH g' after Hp eq_refl).
  - inversion H; subst. exact Hp.
Qed.

Lemma dropSpaces_allChars (p : ascii -> bool) (s : string) :
  allChars p s = true -> allChars p (dropSpaces s) = true.
Proof.
  induction s as [|a s IH]; intros H; [reflexivity|].
  cbn [dropSpaces]. destruct (perlSpace a); [|exact H].
  simpl in H. apply andb_true_iff in H as [_ H]. apply IH, H.
Qed.

Lemma parse_labelRequest (name ws key : string) :
  name <> "" ->
  allChars notColon name = true ->
  allChars perlSpace ws = true ->
  allChars anyChar key = true ->
  allChars notLBracket key = true ->
  parseSpec (labelRequest name ws key) = Some (name, "LABELS", key).
Proof.
  intros Hne Hn Hws Hk Hb. unfold parseSpec, labelRequest.
  rewrite (splitColon_complete _ _ Hn), (dropSpaces_append _ _ Hws).
  destruct name as [|a name]; [contradiction|].
  change (dropSpaces ("LABELS" ++ String lbracket (key ++ String rbracket "")))
    with ("LABELS" ++ String lbracket (key ++ String rbracket ""))%string.
  rewrite (body_exact "LABELS" key eq_refl Hk Hb). reflexivity.
Qed.

Lemma parse_bareLabelRequest (key : string) :
  allChars anyChar key = true ->
  allChars notLBracket key = true ->
  parseSpec (bareLabelRequest key) = Some ("", "LABELS", key).
Proof.
  intros Hk Hb.
  assert (Hplain : parsePlain (bareLabelRequest key)
                   = Some ("", "LABELS", key)).
  { unfold parsePlain, bareLabelRequest.
    rewrite (body_exact "LABELS" key eq_refl Hk Hb). reflexivity. }
  unfold parseSpec. rewrite Hplain.
  destruct (splitColon (bareLabelRequest key)) as [[[|a g] after]|] eqn:E;
    try reflexivity.
  assert (Hafter : allChars notLBracket after = true).
  { unfold bareLabelRequest in E.
    change ("LABELS" ++ String lbracket (key ++ String rbracket ""))%string
      with (String "L" (String "A" (String "B" (String "E" (String "L"
             (String "S" (String lbracket
                (key ++ String rbracket ""))))))))%string in E.
    cbn [splitColon] in E.
    replace (notColon "L") with true in E by reflexivity.
    replace (notColon "A") with true in E by reflexivity.
    replace (notColon "B") with true in E by reflexivity.
    replace (notColon "E") with true in E by reflexivity.
    replace (notColon "S") with true in E by reflexivity.
    replace (notColon lbracket) with true in E by reflexivity.
    destruct (splitColon (key ++ String rbracket "")) as [[g' after']|]
      eqn:E'; [|discriminate].
    inversion E; subst.
    apply (splitColon_after notLBracket (key ++ String rbracket "") g');
      [|exact E'].
    rewrite allChars_append, Hb. reflexivity. }
  rewrite (body_without_bracket _ (dropSpaces_allChars _ _ Hafter)).
  reflexivity.
Qed.

Lemma bag_of_parse (h : Header) (cols : list string) (wide : bool)
    (i : nat) (c g1 key : string) :
  cols !! i = Some c ->
  parseSpec c = Some (g1, "LABELS", key) ->
  snd (MapIndices h cols wide) !! Z.of_nat i
  = Some (mkExtractionInfo (fst (IndexOf h "LABELS" true))
                           (TrimSpace g1) "LABELS" key).
Proof.
  intros Hc Hp. rewrite MapIndices_snd. unfold requestAt.
  destruct (decide (0 <= Z.of_nat i)) as [_|]; [|lia].
  rewrite Z.sub_0_r, Nat2Z.id, Hc. simpl. unfold synthesis.
  destruct (rgx_reads_as_parseSpec c) as [-> _]. rewrite Hp. reflexivity.
Qed.

Lemma capturedName_of_parse (c g1 key : string) :
  parseSpec c = Some (g1, "LABELS", key) -> capturedName c = TrimSpace g1.
Proof.
  intros Hp. unfold capturedName.
  destruct (rgx_reads_as_parseSpec c) as [-> _]. rewrite Hp. reflexivity.
Qed.

Lemma narrow_missing_column (h : Header) (cols : list string) (i : nat)
    (c : string) :
  cols !! i = Some c ->
  snd (IndexOf h c true) = false ->
  exists res : Header,
    Customize h cols false = Some res
    /\ res !! i = Some (namedColumn (capturedName c)).
Proof.
  intros Hc Hm.
  assert (Hne : cols <> []) by (intros ->; discriminate).
  destruct (Customize_narrow_shape h cols Hne) as (pre & Hf & _ & _ & Hpre).
  exists pre. split; [exact Hf|].
  destruct (Hpre i c Hc) as (col & Hp & _ & _ & Hshape).
  destruct (IndexOf h c true) as [idx [|]]; [discriminate|].
  subst col. exact Hp.
Qed.

(** X14. A request made of a custom name without colon, a colon, blanks,
    and LABELS followed by a key in brackets, the key without line feed
    and without opening bracket, is read back as written: the bag of
    [MapIndices] has at its position the index of the column LABELS, the
    trimmed name, LABELS and the key; and when no column has the request
    as its name, [Customize] puts there a column that carries the trimmed
    name and nothing else. The trimmed name is the name without the white
    space at its two ends, and is the name itself when the name neither
    starts nor ends with a white-space character. *)
Theorem label_request_read_back (h : Header) (cols : list string)
    (wide : bool) (i : nat) (name ws key : string) :
  name <> "" ->
  allChars notColon name = true ->
  allChars perlSpace ws = true ->
  allChars anyChar key = true ->
  allChars notLBracket key = true ->
  cols !! i = Some (labelRequest name ws key) ->
  snd (MapIndices h cols wide) !! Z.of_nat i
  = Some (mkExtractionInfo (fst (IndexOf h "LABELS" true))
                           (TrimSpace name) "LABELS" key)
  /\ trimmedOf name (TrimSpace name)
  /\ (~ startsWithSpace name -> ~ endsWithSpace name ->
      TrimSpace name = name)
  /\ (snd (IndexOf h (labelRequest name ws key) true) = false ->
      exists res : Header,
        Customize h cols false = Some res
        /\ res !! i =
             Some (mkHeaderColumn (TrimSpace name) 0 None
                     false false false false false)).
Proof.
  intros Hne Hn Hws Hk Hb Hc.
  pose proof (parse_labelRequest name ws key Hne Hn Hws Hk Hb) as Hp.
  split; [|split; [|split]].
  - apply (bag_of_parse h cols wide i _ name key Hc Hp).
  - apply TrimSpace_trims.
  - apply TrimSpace_unchanged.
  - intros Hm. rewrite <- (capturedName_of_parse _ _ _ Hp).
    apply narrow_missing_column; assumption.
Qed.

(** The request grp: LABELS[app] at position 1 of the sample requests. *)
Lemma label_request_read_back_witness :
  sampleRequests !! 1%nat = Some (labelRequest "grp" " " "app")
  /\ snd (MapIndices sampleHeader sampleRequests false) !! Z.of_nat 1
     = Some (mkExtractionInfo
               (fst (IndexOf sampleHeader "LABELS" true))
               (TrimSpace "grp") "LABELS" "app")
  /\ trimmedOf "grp" (TrimSpace "grp")
  /\ (~ startsWithSpace "grp" -> ~ endsWithSpace "grp" ->
      TrimSpace "grp" = "grp")
  /\ (snd (IndexOf sampleHeader (labelRequest "grp" " " "app") true)
      = false ->
      exists res : Header,
        Customize sampleHeader sampleRequests false = Some res
        /\ res !! 1%nat =
             Some (mkHeaderColumn (TrimSpace "grp") 0 None
                     false false false false false)).
Proof.
  split; [reflexivity|].
  apply (label_request_read_back sampleHeader sampleRequests false 1
                                 "grp" " " "app");
    try reflexivity.
  discriminate.
Defined.

(** X15. A request made of LABELS followed by a key in brackets, the key
    without line feed and without opening bracket, asks for the key under
    the empty custom name, also when the key has a colon. *)
Theorem bare_label_request_read_back (h : Header) (cols : list string)
    (wide : bool) (i : nat) (key : string) :
  allChars anyChar key = true ->
  allChars notLBracket key = true ->
  cols !! i = Some (bareLabelRequest key) ->
  snd (MapIndices h cols wide) !! Z.of_nat i
  = Some (mkExtractionInfo (fst (IndexOf h "LABELS" true))
                           "" "LABELS" key).
Proof.
  intros Hk Hb Hc.
  pose proof (parse_bareLabelRequest key Hk Hb) as Hp.
  apply (bag_of_parse h cols wide i _ "" key Hc Hp).
Qed.

(** A key with a colon and a slash. *)
Lemma bare_label_request_read_back_witness :
  ["NAME"; bareLabelRequest "k8s.io/role:x"] !! 1%nat
  = Some (bareLabelRequest "k8s.io/role:x")
  /\ snd (MapIndices sampleHeader
                     ["NAME"; bareLabelRequest "k8s.io/role:x"] true)
       !! Z.of_nat 1
     = Some (mkExtractionInfo
               (fst (IndexOf sampleHeader "LABELS" true))
               "" "LABELS" "k8s.io/role:x").
Proof.
  split; [reflexivity|].
  apply (bare_label_request_read_back
           sampleHeader ["NAME"; bareLabelRequest "k8s.io/role:x"] true 1
           "k8s.io/role:x"); reflexivity.
Defined.

(** X16. Every entry of the bag of [MapIndices] sits at the position of a
    request, names LABELS as its header, and carries the same index: that
    of the first column named LABELS, wide or not, or -1 when the header
    has no such column. *)
Theorem bag_entries_point_to_LABELS (h : Header) (cols : list string)
    (wide : bool) (k : Z) (e : ExtractionInfo) :
  snd (MapIndices h cols wide) !! k = Some e ->
  0 <= k < len cols
  /\ HeaderName e = "LABELS"
  /\ IdxInFields e = fst (IndexOf h "LABELS" true)
  /\ ((IdxInFields e = -1
       /\ forall c : HeaderColumn, c ∈ h -> Name c <> "LABELS")
      \/ exists c : HeaderColumn,
           index h (IdxInFields e) = Some c /\ Name c = "LABELS").
Proof.
  rewrite MapIndices_snd. unfold requestAt.
  destruct (decide (0 <= k)) as [Hk|Hk]; [|discriminate].
  rewrite Z.sub_0_r.
  destruct (cols !! Z.to_nat k) as [col|] eqn:Hc; [|discriminate].
  simpl. intros Hs.
  apply synthesis_Some in Hs as (m & g1 & g2 & g3 & _ & _ & _ & ->).
  simpl. split.
  { apply lookup_lt_Some in Hc. unfold len. lia. }
  split; [reflexivity|]. split; [reflexivity|].
  destruct (IndexOf h "LABELS" true) as [idx [|]] eqn:E; simpl.
  - right. destruct (IndexOf_found _ _ _ _ E) as (c & Hi & Hn & _). eauto.
  - left. pose proof E as E'. apply IndexOf_missing in E'. split; [exact E'|].
    intros c Hin Hn.
    assert (snd (IndexOf h "LABELS" true) = true) as Hf
      by (apply IndexOf_wide_iff; eauto).
    rewrite E in Hf. discriminate.
Qed.

(** The entry of the request grp: LABELS[app]. *)
Lemma bag_entries_point_to_LABELS_witness :
  snd (MapIndices sampleHeader sampleRequests false) !! 1
  = Some (mkExtractionInfo 2 "grp" "LABELS" "app")
  /\ 0 <= 1 < len sampleRequests
  /\ HeaderName (mkExtractionInfo 2 "grp" "LABELS" "app") = "LABELS"
  /\ IdxInFields (mkExtractionInfo 2 "grp" "LABELS" "app")
     = fst (IndexOf sampleHeader "LABELS" true)
  /\ ((IdxInFields (mkExtractionInfo 2 "grp" "LABELS" "app") = -1
       /\ forall c : HeaderColumn,
            c ∈ sampleHeader -> Name c <> "LABELS")
      \/ exists c : HeaderColumn,
           index sampleHeader
                 (IdxInFields (mkExtractionInfo 2 "grp" "LABELS" "app"))
           = Some c
           /\ Name c = "LABELS").
Proof.
  assert (H : snd (MapIndices sampleHeader sampleRequests false) !! 1
              = Some (mkExtractionInfo 2 "grp" "LABELS" "app"))
    by (vm_compute; reflexivity).
  split; [exact H|].
  apply (bag_entries_point_to_LABELS sampleHeader sampleRequests false 1).
  exact H.
Defined.

(** ** Requests handled one by one *)

(** X17. [MapIndices] handles each request by itself: for a list of
    requests followed by another, the index list is the index list of the
    first followed by that of the second, and the bag has the entries of
    the first and, moved by the length of the first, those of the
    second. *)
Theorem MapIndices_append (h : Header) (a b : list string) (wide : bool) :
  fst (MapIndices h (a ++ b) wide)
  = fst (MapIndices h a wide) ++ fst (MapIndices h b wide)
  /\ forall k : Z,
       snd (MapIndices h (a ++ b) wide) !! k
       = if decide (k < len a)
         then snd (MapIndices h a wide) !! k
         else snd (MapIndices h b wide) !! (k - len a).
Proof.
  split.
  - rewrite !MapIndices_fst. apply map_app.
  - intros k. rewrite !MapIndices_snd. unfold requestAt, len.
    destruct (decide (k < Z.of_nat (length a))) as [Hlt|Hge].
    + destruct (decide (0 <= k)) as [Hk|Hk]; [|reflexivity].
      rewrite Z.sub_0_r, lookup_app_l by lia. reflexivity.
    + destruct (decide (0 <= k)) as [_|]; [|lia].
      destruct (decide (0 <= k - Z.of_nat (length a))) as [_|]; [|lia].
      rewrite !Z.sub_0_r, lookup_app_r by lia.
      replace (Z.to_nat k - length a)%nat
        with (Z.to_nat (k - Z.of_nat (length a))) by lia.
      reflexivity.
Qed.

Lemma narrow_column_unique (h : Header) (c : string)
    (col1 col2 : HeaderColumn) :
  match IndexOf h c true with
  | (idx, true) =>
      exists hc : HeaderColumn,
        index h idx = Some hc /\ col1 = setWide false hc
  | (_, false) => col1 = namedColumn (capturedName c)
  end ->
  match IndexOf h c true with
  | (idx, true) =>
      exists hc : HeaderColumn,
        index h idx = Some hc /\ col2 = setWide false hc
  | (_, false) => col2 = namedColumn (capturedName c)
  end ->
  col1 = col2.
Proof.
  destruct (IndexOf h c true) as [idx [|]].
  - intros (hc1 & H1 & ->) (hc2 & H2 & ->). congruence.
  - congruence.
Qed.

(** X18. With [wide] unset, [Customize] handles each request by itself:
    for a list of requests followed by another, neither empty, it returns
    the columns it returns for the first followed by those it returns for
    the second. *)
Theorem Customize_narrow_append (h : Header) (a b : list string) :
  a <> [] -> b <> [] ->
  exists ra rb : Header,
    Customize h a false = Some ra
    /\ Customize h b false = Some rb
    /\ Customize h (a ++ b) false = Some (ra ++ rb).
Proof.
  intros Ha Hb.
  assert (Hab : a ++ b <> []) by (destruct a; [contradiction|discriminate]).
  destruct (Customize_narrow_shape h a Ha) as (ra & Hfa & _ & Hla & Hra).
  destruct (Customize_narrow_shape h b Hb) as (rb & Hfb & _ & Hlb & Hrb).
  destruct (Customize_narrow_shape h _ Hab) as (r & Hf & _ & Hl & Hr).
  exists ra, rb. split; [exact Hfa|]. split; [exact Hfb|].
  rewrite Hf. f_equal. apply list_eq. intros i.
  rewrite length_app in Hl.
  destruct (decide (i < length a)%nat) as [Hi|Hi].
  - rewrite lookup_app_l by lia.
    destruct (lookup_lt_is_Some_2 a i Hi) as [c Hc].
    assert ((a ++ b) !! i = Some c) as Hc'
      by (rewrite lookup_app_l by lia; exact Hc).
    destruct (Hr i c Hc') as (col & -> & _ & _ & Hs).
    destruct (Hra i c Hc) as (col' & -> & _ & _ & Hs').
    f_equal. apply (narrow_column_unique h c); assumption.
  - rewrite lookup_app_r by lia.
    destruct (decide (i - length ra < length b)%nat) as [Hj|Hj].
    + destruct (lookup_lt_is_Some_2 b (i - length ra) Hj) as [c Hc].
      assert ((a ++ b) !! i = Some c) as Hc'.
      { rewrite lookup_app_r by lia. rewrite <- Hla. exact Hc. }
      destruct (Hr i c Hc') as (col & -> & _ & _ & Hs).
      destruct (Hrb _ c Hc) as (col' & -> & _ & _ & Hs').
      f_equal. apply (narrow_column_unique h c); assumption.
    + rewrite (proj2 (lookup_ge_None r i)) by lia.
      rewrite (proj2 (lookup_ge_None rb (i - length ra))) by lia.
      reflexivity.
Qed.

(** The two sample requests, one after the other. *)
Lemma Customize_narrow_append_witness :
  ["NAME"] <> [] /\ ["grp: LABELS[app]"] <> []
  /\ exists ra rb : Header,
       Customize sampleHeader ["NAME"] false = Some ra
       /\ Customize sampleHeader ["grp: LABELS[app]"] false = Some rb
       /\ Customize sampleHeader (["NAME"] ++ ["grp: LABELS[app]"]) false
          = Some (ra ++ rb).
Proof.
  split; [discriminate|]. split; [discriminate|].
  apply (Customize_narrow_append sampleHeader ["NAME"] ["grp: LABELS[app]"]);
    discriminate.
Defined.

(** ** The age column after Customize *)

Lemma keptFrom_subset (keep : Z -> bool) (l : Header) :
  forall (a : nat) (c : HeaderColumn), c ∈ keptFrom keep a l -> c ∈ l.
Proof.
  induction l as [|c0 l IH]; intros a c Hc.
  - exact Hc.
  - rewrite keptFrom_cons in Hc. apply elem_of_cons.
    destruct (keep (Z.of_nat a)).
    + apply elem_of_cons in Hc as [->|Hc]; [auto|right; eapply IH, Hc].
    + right. eapply IH, Hc.
Qed.

Lemma named_in_map (h : Header) (cols : list string) (pre : Header)
    (n : string) :
  map Name pre = map (shownName h) cols ->
  (exists col : HeaderColumn, col ∈ pre /\ Name col = n) <->
  (exists c : string, c ∈ cols /\ shownName h c = n).
Proof.
  intros Hn. split.
  - intros (col & Hin & Hname).
    assert (In n (map (shownName h) cols)) as H.
    { rewrite <- Hn. apply in_map_iff. exists col.
      split; [exact Hname|apply list_elem_of_In, Hin]. }
    apply in_map_iff in H as (c & Hc & Hin'). exists c.
    split; [apply list_elem_of_In, Hin'|exact Hc].
  - intros (c & Hin & Hname).
    assert (In n (map Name pre)) as H.
    { rewrite Hn. apply in_map_iff. exists c.
      split; [exact Hname|apply list_elem_of_In, Hin]. }
    apply in_map_iff in H as (col & Hc & Hin'). exists col.
    split; [apply list_elem_of_In, Hin'|exact Hc].
Qed.

(** X19. After [Customize] with [wide] unset, the header has an age column
    exactly when a request names the column AGE of the header or, naming
    no column, is kept under the custom name AGE. With [wide] set it has
    one in these cases and whenever the original header has one. *)
Theorem Customize_HasAge (h : Header) (cols : list string) :
  cols <> [] ->
  exists narrow full : Header,
    Customize h cols false = Some narrow
    /\ Customize h cols true = Some full
    /\ (HasAge narrow = true <->
        exists c : string, c ∈ cols /\ shownName h c = "AGE")
    /\ (HasAge full = true <->
        HasAge h = true
        \/ exists c : string, c ∈ cols /\ shownName h c = "AGE").
Proof.
  intros Hne.
  destruct (Customize_narrow_shape h cols Hne) as (pre & Hf & Ht & Hl & Hpre).
  destruct (narrow_names h cols pre Hl) as [_ Hn].
  { intros i c Hc. destruct (Hpre i c Hc) as (col & ? & ? & ? & _). eauto. }
  exists pre, (pre ++ map (setWide true) (unmatched h cols)).
  split; [exact Hf|]. split; [exact Ht|].
  unfold HasAge, ageCol. rewrite !IndexOf_wide_iff.
  split; [apply named_in_map, Hn|].
  rewrite <- (named_in_map h cols pre "AGE" Hn). split.
  - intros (col & Hin & Hname). apply elem_of_app in Hin as [Hin|Hin].
    + right. eauto.
    + left. apply list_elem_of_In, in_map_iff in Hin as (u & <- & Hu).
      exists u. split; [|exact Hname].
      apply (keptFrom_subset (fun j => negb (consumed h cols j)) h 0).
      apply list_elem_of_In, Hu.
  - intros [(hc & Hin & Hname)|(col & Hin & Hname)].
    + apply list_elem_of_lookup in Hin as [j Hj].
      destruct (consumed h cols (Z.of_nat j)) eqn:Ec.
      * apply consumed_iff in Ec as (c & Hc & Hr).
        apply list_elem_of_lookup in Hc as [i Hi].
        destruct (Hpre i c Hi) as (col & Hp & _ & Hshown & _).
        destruct (IndexOf_found _ _ _ _ Hr) as (hc' & Hidx & Hcn & _).
        rewrite index_of_nat, Hj in Hidx. inversion Hidx; subst hc'.
        exists col. split.
        -- apply elem_of_app. left. apply list_elem_of_lookup. eauto.
        -- rewrite Hshown. unfold shownName. rewrite Hr. simpl. congruence.
      * exists (setWide true hc). split; [|exact Hname].
        apply elem_of_app. right.
        apply (list_elem_of_fmap_2 (setWide true)).
        unfold unmatched. apply (keptFrom_lookup _ h 0 j hc Hj).
        simpl. rewrite Ec. reflexivity.
    + exists col. split; [|exact Hname]. apply elem_of_app. auto.
Qed.

(** The sample requests: the age column is left to the wide columns. *)
Lemma Customize_HasAge_witness :
  sampleRequests <> []
  /\ exists narrow full : Header,
       Customize sampleHeader sampleRequests false = Some narrow
       /\ Customize sampleHeader sampleRequests true = Some full
       /\ (HasAge narrow = true <->
           exists c : string,
             c ∈ sampleRequests /\ shownName sampleHeader c = "AGE")
       /\ (HasAge full = true <->
           HasAge sampleHeader = true
           \/ exists c : string,
                c ∈ sampleRequests /\ shownName sampleHeader c = "AGE").
Proof.
  split; [discriminate|].
  apply (Customize_HasAge sampleHeader sampleRequests). discriminate.
Defined.

(** ** Labelize on the index list of MapIndices *)

(** X20. The index -1 that [MapIndices] gives for a request that names no
    column is no index for [Labelize]: on the index list of [MapIndices],
    [Labelize] fails exactly when some request names no column of the
    header. *)
Theorem Labelize_on_MapIndices (h : Header) (cols : list string)
    (wide : bool) (labelCol : Z) (ExtractHeaderLabels : Z -> list string) :
  Labelize h (fst (MapIndices h cols wide)) labelCol ExtractHeaderLabels
  = None <->
  exists c : string, c ∈ cols /\ snd (IndexOf h c true) = false.
Proof.
  unfold Labelize.
  transitivity (Labelize_cols h (fst (MapIndices h cols wide)) [] = None).
  { destruct (Labelize_cols h (fst (MapIndices h cols wide)) []); simpl;
      split; try discriminate; reflexivity. }
  rewrite Labelize_cols_None, MapIndices_fst. split.
  - intros (idx & Hin & Hout).
    apply list_elem_of_In, in_map_iff in Hin as (c & <- & Hc).
    exists c. split; [apply list_elem_of_In, Hc|].
    destruct (IndexOf h c true) as [idx [|]] eqn:E; [|reflexivity].
    apply IndexOf_found in E as (_ & _ & _ & Hr). simpl in Hout. lia.
  - intros (c & Hc & Hm). exists (fst (IndexOf h c true)). split.
    + apply list_elem_of_In, in_map_iff. exists c.
      split; [reflexivity|apply list_elem_of_In, Hc].
    + rewrite (IndexOf_missing_fst h c Hm). lia.
Qed.
